(** * KoboldAI: story register, text trimming and warper pipeline

    A shallow embedding of
    - [structures.py]  (class [KoboldStoryRegister]),
    - [utils.py]       (the text functions [trimincompletesentence],
      [replaceblanklines], [removespecialchars], [addsentencespacing],
      [singlelineprocessing], [cleanfilename], [encodenewlines] and
      [decodenewlines]),
    - [modeling/inference_models/basic_hf/class.py]
      (methods [_apply_warpers], [KoboldLogitsWarperList.__call__],
      [_raw_generate] and [get_local_model_path] of [model_backend], and
      the newline mode and bad words of [_post_load]),
    together with the properties the specification states about them and
    further properties read off the code.

    Python integers are unbounded, so ids and indices are [Z].  A Python
    exception is a value of type [exn]; a call that may raise returns a
    [result]. *)

From Stdlib Require Import ZArith List String Ascii Bool Lia Sorted.
Import ListNotations.
Open Scope Z_scope.

(** ** Exceptions *)

(** The argument of a [KeyError] is the missing key or, from [popitem], a
    message. *)
Inductive key_error_arg : Type :=
| MissingKey (k : Z)
| Message (msg : string).

Inductive exn : Type :=
| KeyError (arg : key_error_arg)
| StopIteration
| IndexError
| AssertionError (msg : string).

Inductive result (A : Type) : Type :=
| Ok (a : A)
| Raise (e : exn).
Arguments Ok {A} a.
Arguments Raise {A} e.

(** ** [collections.OrderedDict] with integer keys and text values

    The entries in traversal order, which is the order in which the keys
    were first inserted: storing under a key that is present replaces the
    text where the key stands, storing under an absent key adds the entry at
    the end. *)

Module OrderedDict.

Definition t : Type := list (Z * string).

Definition keys (d : t) : list Z := map fst d.

(** [d[k] = v] *)
Fixpoint setitem (k : Z) (v : string) (d : t) : t :=
  match d with
  | [] => [(k, v)]
  | (k', v') :: d' =>
      if k' =? k then (k', v) :: d' else (k', v') :: setitem k v d'
  end.

(** [d[k]], which raises [KeyError] on an absent key *)
Fixpoint getitem (k : Z) (d : t) : option string :=
  match d with
  | [] => None
  | (k', v') :: d' => if k' =? k then Some v' else getitem k d'
  end.

(** [OrderedDict(sequence)]: the pairs are stored one after the other *)
Definition of_sequence (sequence : list (Z * string)) : t :=
  fold_left (fun d kv => setitem (fst kv) (snd kv) d) sequence [].

(** [d.popitem()] with its default [last=True]: the last entry and the
    dictionary without it, or nothing on an empty dictionary (where
    Python raises [KeyError('dictionary is empty')]). *)
Fixpoint popitem (d : t) : option ((Z * string) * t) :=
  match d with
  | [] => None
  | kv :: d' =>
      match popitem d' with
      | None => Some (kv, [])
      | Some (last, rest) => Some (last, kv :: rest)
      end
  end.

(** [next(iter(d))] and [next(reversed(d))] on a non-empty dictionary *)
Definition first_key (d : t) : option Z :=
  match d with
  | [] => None
  | (k, _) :: _ => Some k
  end.

Fixpoint last_key (d : t) : option Z :=
  match d with
  | [] => None
  | [(k, _)] => Some k
  | _ :: d' => last_key d'
  end.

End OrderedDict.

(** ** [class KoboldStoryRegister(collections.OrderedDict)] *)

Record KoboldStoryRegister : Type := mkRegister {
  dict : OrderedDict.t;     (* the inherited ordered dictionary *)
  next_id : Z               (* [self.__next_id] *)
}.

(** [__init__(self, sequence=())] for a sequence that can be traversed
    twice (a list or a tuple): the dictionary is filled from it and
    [__next_id] is [sum(1 for _ in sequence)]. *)
Definition init (sequence : list (Z * string)) : KoboldStoryRegister :=
  {| dict := OrderedDict.of_sequence sequence;
     next_id := fold_left (fun acc _ => acc + 1) sequence 0 |}.

Definition increment_id (r : KoboldStoryRegister) : KoboldStoryRegister :=
  {| dict := dict r; next_id := next_id r + 1 |}.

Definition get_next_id (r : KoboldStoryRegister) : Z := next_id r.

Definition set_next_id (r : KoboldStoryRegister) (x : Z) : KoboldStoryRegister :=
  {| dict := dict r; next_id := x |}.

(** [__setitem__] and [__getitem__] defer to the dictionary. *)
Definition setitem (r : KoboldStoryRegister) (k : Z) (v : string)
  : KoboldStoryRegister :=
  {| dict := OrderedDict.setitem k v (dict r); next_id := next_id r |}.

Definition getitem (r : KoboldStoryRegister) (k : Z) : result string :=
  match OrderedDict.getitem k (dict r) with
  | Some v => Ok v
  | None => Raise (KeyError (MissingKey k))
  end.

(** [append]: [self[self.__next_id] = v] and then [self.increment_id()] *)
Definition append (r : KoboldStoryRegister) (v : string) : KoboldStoryRegister :=
  increment_id (setitem r (next_id r) v).

(** The inherited [popitem()]; the register is left as it was when it
    raises. *)
Definition popitem (r : KoboldStoryRegister)
  : result ((Z * string) * KoboldStoryRegister) :=
  match OrderedDict.popitem (dict r) with
  | None => Raise (KeyError (Message "dictionary is empty"))
  | Some (kv, rest) => Ok (kv, {| dict := rest; next_id := next_id r |})
  end.

(** [pop]: [self.popitem()[1]] *)
Definition pop (r : KoboldStoryRegister) : result (string * KoboldStoryRegister) :=
  match popitem r with
  | Ok (kv, r') => Ok (snd kv, r')
  | Raise e => Raise e
  end.

(** [len(self)] *)
Definition len (r : KoboldStoryRegister) : Z := Z.of_nat (List.length (dict r)).

(** [next(iter(self))] and [next(reversed(self))], which raise
    [StopIteration] when there is nothing to traverse *)
Definition next_iter (r : KoboldStoryRegister) : result Z :=
  match OrderedDict.first_key (dict r) with
  | Some k => Ok k
  | None => Raise StopIteration
  end.

Definition next_reversed (r : KoboldStoryRegister) : result Z :=
  match OrderedDict.last_key (dict r) with
  | Some k => Ok k
  | None => Raise StopIteration
  end.

(** [get_first_key] (declared as a property in the source, so it is read
    as an attribute) and [get_last_key] *)
Definition get_first_key (r : KoboldStoryRegister) : result Z :=
  if len r =? 0 then Ok (-1) else next_iter r.

Definition get_last_key (r : KoboldStoryRegister) : result Z :=
  if len r =? 0 then Ok (-1) else next_reversed r.

(** *** Histories of calls on one register

    A caller drives the register by a sequence of calls; a call that raises
    leaves the register as it was and the caller goes on.  Each call is
    recorded with what it did to the ids. *)

Inductive call : Type :=
| CallAppend (v : string)
| CallPop
| CallSetItem (k : Z) (v : string)
| CallSetNextId (x : Z).

Inductive event : Type :=
| Appended (id : Z)              (* [append] stored its text under [id] *)
| Stored (id : Z)                (* [self[id] = v] by the caller *)
| Popped (id : Z) (v : string)   (* [pop] removed the entry [id] *)
| Raised (e : exn)
| CounterSet (x : Z).

Definition step (r : KoboldStoryRegister) (c : call) : KoboldStoryRegister * event :=
  match c with
  | CallAppend v => (append r v, Appended (next_id r))
  | CallPop =>
      match popitem r with
      | Ok ((k, v), r') => (r', Popped k v)
      | Raise e => (r, Raised e)
      end
  | CallSetItem k v => (setitem r k v, Stored k)
  | CallSetNextId x => (set_next_id r x, CounterSet x)
  end.

Fixpoint run (r : KoboldStoryRegister) (calls : list call)
  : KoboldStoryRegister * list event :=
  match calls with
  | [] => (r, [])
  | c :: calls' =>
      let (r1, e) := step r c in
      let (r2, es) := run r1 calls' in
      (r2, e :: es)
  end.

Fixpoint appended_ids (es : list event) : list Z :=
  match es with
  | [] => []
  | Appended id :: es' => id :: appended_ids es'
  | _ :: es' => appended_ids es'
  end.




(** the ids [a], [a+1], ..., [a+n-1] *)
Fixpoint ids_from (a : Z) (n : nat) : list Z :=
  match n with
  | O => []
  | S n' => a :: ids_from (a + 1) n'
  end.

Definition is_append (c : call) : bool :=
  match c with CallAppend _ => true | _ => false end.

Definition append_or_pop (c : call) : bool :=
  match c with CallAppend _ | CallPop => true | _ => false end.




(** every live id lies below the counter *)
Definition live_ids_below_counter (r : KoboldStoryRegister) : Prop :=
  forall k, In k (OrderedDict.keys (dict r)) -> k < next_id r.



(** ** [utils.py]: [trimincompletesentence]

    A text is a [string]; the four characters the function looks for are
    ASCII, and an ASCII byte never occurs inside the UTF-8 encoding of
    another character, so positions of bytes cut the text where positions
    of characters do. *)

Module utils.

Definition quote : ascii := "034"%char.    (* the double quote *)

(** [txt.rfind(c)] for a single character: the highest index at which
    [c] stands, or -1.  [rfind_from c s i] searches [s], whose first
    character has index [i]. *)
Fixpoint rfind_from (c : ascii) (s : string) (i : Z) : Z :=
  match s with
  | EmptyString => -1
  | String a s' =>
      let later := rfind_from c s' (i + 1) in
      if 0 <=? later then later
      else if Ascii.eqb a c then i else -1
  end.

Definition rfind (txt : string) (c : ascii) : Z := rfind_from c txt 0.

(** [txt[i]]: a negative index counts from the end, an index out of
    range raises [IndexError]. *)
Definition index (txt : string) (i : Z) : result ascii :=
  let ln := Z.of_nat (String.length txt) in
  let j := if i <? 0 then ln + i else i in
  if (j <? 0) || (ln <=? j) then Raise IndexError
  else match String.get (Z.to_nat j) txt with
       | Some c => Ok c
       | None => Raise IndexError
       end.

(** [txt[:stop]] *)
Definition slice_to (txt : string) (stop : Z) : string :=
  let ln := Z.of_nat (String.length txt) in
  let stop' := if stop <? 0 then Z.max 0 (ln + stop) else Z.min stop ln in
  String.substring 0 (Z.to_nat stop') txt.

Definition trimincompletesentence (txt : string) : result string :=
  (* Cache length of text *)
  let ln := Z.of_nat (String.length txt) in
  (* Find last instance of punctuation *)
  let lastpunc := Z.max (Z.max (rfind txt ".") (rfind txt "!")) (rfind txt "?") in
  (* Is this the end of a quote? *)
  let after_quote :=
    if lastpunc <? ln - 1 then
      match index txt (lastpunc + 1) with
      | Ok c => Ok (if Ascii.eqb c quote then lastpunc + 1 else lastpunc)
      | Raise e => Raise e
      end
    else Ok lastpunc in
  match after_quote with
  | Ok lastpunc => Ok (if 0 <=? lastpunc then slice_to txt (lastpunc + 1) else txt)
  | Raise e => Raise e
  end.

(** Whether one of the sentence-terminal characters occurs in a text *)
Definition is_terminal (c : ascii) : bool :=
  Ascii.eqb c "." || Ascii.eqb c "!" || Ascii.eqb c "?".

Fixpoint has_terminal (txt : string) : bool :=
  match txt with
  | EmptyString => false
  | String a s' => is_terminal a || has_terminal s'
  end.

(** *** [str.replace] and the functions built on it

    [txt.replace(old, new)] replaces the occurrences of [old] that do not
    overlap, from the left.  [replace_from skip old new s] is the scan at a
    point where [skip] characters of a match are still to be passed over. *)

Fixpoint replace_from (skip : nat) (old new s : string) : string :=
  match s with
  | EmptyString => EmptyString
  | String c s' =>
      match skip with
      | S skip' => replace_from skip' old new s'
      | O =>
          if String.prefix old s
          then (new ++ replace_from (String.length old - 1) old new s')%string
          else String c (replace_from 0 old new s')
      end
  end.

(** with an empty [old], [new] is put before every character and at the end *)
Fixpoint interleave (new s : string) : string :=
  match s with
  | EmptyString => EmptyString
  | String c s' => String c (new ++ interleave new s')
  end.

Definition replace (txt old new : string) : string :=
  match old with
  | EmptyString => (new ++ interleave new txt)%string
  | String _ _ => replace_from 0 old new txt
  end.

(** [old in s] *)
Fixpoint occurs (old s : string) : bool :=
  String.prefix old s
  || match s with
     | EmptyString => false
     | String _ s' => occurs old s'
     end.

Definition newline : string := String "010" EmptyString.

(** a text of [n] newlines *)
Fixpoint newlines (n : nat) : string :=
  match n with
  | O => EmptyString
  | S n' => String "010" (newlines n')
  end.

Definition replaceblanklines (txt : string) : string :=
  replace txt (newline ++ newline) newline.

(** what the functions read of the settings object [vars] *)
Record kobold_vars : Type := mkVars {
  vars_actions : KoboldStoryRegister;       (* [vars.actions] *)
  vars_prompt : string;                     (* [vars.prompt] *)
  vars_actionmode : Z;                      (* [vars.actionmode] *)
  vars_newlinemode : string;                (* [vars.newlinemode] *)
  vars_regex_sl_sub : string -> string      (* [vars.regex_sl.sub('', txt)] *)
}.

(** [c in cls] for a character *)
Fixpoint in_class (cls : string) (c : ascii) : bool :=
  match cls with
  | EmptyString => false
  | String a cls' => Ascii.eqb a c || in_class cls' c
  end.

(** [re.sub(r"[...]", "", txt)]: every character of the class is dropped *)
Fixpoint re_sub_class (cls : string) (txt : string) : string :=
  match txt with
  | EmptyString => EmptyString
  | String c s' =>
      if in_class cls c then re_sub_class cls s'
      else String c (re_sub_class cls s')
  end.

Definition removespecialchars (txt : string) (vars : option kobold_vars) : string :=
  if match vars with
     | None => true
     | Some vars => vars_actionmode vars =? 0
     end
  then re_sub_class "#/@%<>{}+=~|^" txt
  else re_sub_class "#/@%{}+=~|^" txt.

(** [action[-1] if len(action) else ""]: the last character, if any *)
Fixpoint lastchar_of (action : string) : option ascii :=
  match action with
  | EmptyString => None
  | String c EmptyString => Some c
  | String _ s' => lastchar_of s'
  end.

(** [vars.actions[vars.actions.get_last_key()]] *)
Definition last_action (vars : kobold_vars) : result string :=
  match get_last_key (vars_actions vars) with
  | Ok k => getitem (vars_actions vars) k
  | Raise e => Raise e
  end.

(** the character both functions below look at: the last one of the last
    action, or of the prompt when there is no action; [None] in the outer
    place is the bail-out on a blank last action *)
Definition context_lastchar (vars : kobold_vars) : result (option (option ascii)) :=
  if 0 <? len (vars_actions vars) then
    match last_action vars with
    | Raise e => Raise e
    | Ok first_read =>
        if 0 <? Z.of_nat (String.length first_read) then
          match last_action vars with
          | Raise e => Raise e
          | Ok action => Ok (Some (lastchar_of action))
          end
        else Ok None
    end
  else Ok (Some (lastchar_of (vars_prompt vars))).

Definition is_closure (lastchar : option ascii) : bool :=
  match lastchar with
  | Some c => in_class ".!?,;:" c
  | None => false
  end.

Definition addsentencespacing (txt : string) (vars : kobold_vars) : result string :=
  match context_lastchar vars with
  | Raise e => Raise e
  | Ok None => Ok txt
  | Ok (Some lastchar) =>
      Ok (if is_closure lastchar then (" " ++ txt)%string else txt)
  end.

Definition singlelineprocessing (txt : string) (vars : kobold_vars) : result string :=
  let txt := vars_regex_sl_sub vars txt in
  match context_lastchar vars with
  | Raise e => Raise e
  | Ok None => Ok txt
  | Ok (Some lastchar) =>
      Ok (match lastchar with
          | Some "010"%char => txt
          | _ => (txt ++ newline)%string
          end)
  end.

(** [encodenewlines] and [decodenewlines] read the module's own [vars],
    which is [None] when the module is loaded and is set by the
    application; they are modelled with it set. *)
Definition encodenewlines (vars : kobold_vars) (txt : string) : string :=
  if String.eqb (vars_newlinemode vars) "s" then replace txt newline "</s>"
  else txt.

Definition decodenewlines (vars : kobold_vars) (txt : string) : string :=
  if String.eqb (vars_newlinemode vars) "s" then replace txt "</s>" newline
  else txt.

(** *** [cleanfilename]

    A file name is taken as its characters, each a Unicode code point;
    which characters [str.rstrip()] takes for white space is a table of
    Python, here the parameter [isspace]. *)

Fixpoint dropwhile (p : Z -> bool) (l : list Z) : list Z :=
  match l with
  | [] => []
  | c :: l' => if p c then dropwhile p l' else l
  end.

Definition rstrip (isspace : Z -> bool) (l : list Z) : list Z :=
  rev (dropwhile isspace (rev l)).

Definition filteredcharacters : list Z := [47; 92].     (* '/' and '\\' *)

Definition cleanfilename (isspace : Z -> bool) (filename : list Z) : list Z :=
  rstrip isspace
    (filter (fun c => negb (existsb (Z.eqb c) filteredcharacters)) filename).

End utils.

(** ** [basic_hf/class.py]: the warper pipeline

    The module [modeling.warpers] is not part of the sources at hand: a
    warper is taken as what [_apply_warpers] uses of it, and the table
    [Warper.from_id] is a parameter.  A score tensor is a value of a type
    [Tensor] with a [shape]; Python's [None] in the place of a tensor is
    [None] here. *)

Section WarperPipeline.

Variables Tensor InputIds : Type.

Record Warper : Type := mkWarper {
  warper_str : string;        (* [str(warper)], as an f-string renders it *)
  value_is_valid : bool;      (* [warper.value_is_valid()], once
                                 [warpers.update_settings()] has run *)
  is_RepetitionPenalty : bool;(* [warper == warpers.RepetitionPenalty] *)
  torch : Tensor -> option InputIds -> option Tensor
                              (* [warper.torch(scores)] and
                                 [warper.torch(scores, input_ids=...)] *)
}.

(** an entry of [self.logits_processors] *)
Record Processor : Type := mkProcessor {
  processor_str : string;     (* [str(processor)] *)
  processor_call : Tensor -> InputIds -> option Tensor
                              (* [processor(self, scores=..., input_ids=...)] *)
}.

Variable from_id : Z -> Warper.     (* [warpers.Warper.from_id] *)

Definition warper_blame (w : Warper) : string :=
  ("Scores are None; warper '" ++ warper_str w ++ "' is to blame")%string.

Definition processor_blame (p : Processor) : string :=
  ("Scores are None; processor '" ++ processor_str p ++ "' is to blame")%string.

(** the call of [warper.torch] in the body of the loop *)
Definition warper_output (w : Warper) (scores : Tensor) (input_ids : InputIds)
  : option Tensor :=
  if is_RepetitionPenalty w
  then torch w scores (Some input_ids)
  else torch w scores None.

(** [_apply_warpers(self, scores, input_ids)], by recursion on what is
    left of [utils.koboldai_vars.sampler_order] *)
Fixpoint _apply_warpers (sampler_order : list Z)
    (scores : Tensor) (input_ids : InputIds) : result Tensor :=
  match sampler_order with
  | [] => Ok scores
  | sid :: rest =>
      let warper := from_id sid in
      if negb (value_is_valid warper) then _apply_warpers rest scores input_ids
      else
        match warper_output warper scores input_ids with
        | None => Raise (AssertionError (warper_blame warper))
        | Some scores' => _apply_warpers rest scores' input_ids
        end
  end.

(** the loop over [self.logits_processors] in
    [KoboldLogitsWarperList.__call__] *)
Fixpoint apply_processors (logits_processors : list Processor)
    (scores : Tensor) (input_ids : InputIds) : result Tensor :=
  match logits_processors with
  | [] => Ok scores
  | processor :: rest =>
      match processor_call processor scores input_ids with
      | None => Raise (AssertionError (processor_blame processor))
      | Some scores' => apply_processors rest scores' input_ids
      end
  end.

(** [KoboldLogitsWarperList.__call__(_self, input_ids, scores)] *)
Definition KoboldLogitsWarperList_call
    (sampler_order : list Z) (logits_processors : list Processor)
    (input_ids : InputIds) (scores : Tensor) : result Tensor :=
  match _apply_warpers sampler_order scores input_ids with
  | Ok scores' => apply_processors logits_processors scores' input_ids
  | Raise e => Raise e
  end.

(** *** What a stage may hand on *)

Variable Shape : Type.
Variable shape : Tensor -> Shape.

(** a stage's result is null *)
Definition null_result (input : Tensor) (output : option Tensor) : Prop :=
  output = None.

(** a stage's result is null or has another shape than what went in *)
Definition null_or_reshaped (input : Tensor) (output : option Tensor) : Prop :=
  output = None \/ exists t, output = Some t /\ shape t <> shape input.

(** The pipeline halts at a warper whose result is [bad], blaming it,
    whatever stages follow. *)
Definition warper_stage_guarded
    (bad : Tensor -> option Tensor -> Prop) : Prop :=
  forall (pre : list Z) (sid : Z) (post : list Z)
         (logits_processors : list Processor)
         (scores s_in : Tensor) (input_ids : InputIds),
    _apply_warpers pre scores input_ids = Ok s_in ->
    value_is_valid (from_id sid) = true ->
    bad s_in (warper_output (from_id sid) s_in input_ids) ->
    KoboldLogitsWarperList_call (pre ++ sid :: post) logits_processors
                                input_ids scores
    = Raise (AssertionError (warper_blame (from_id sid))).

(** The pipeline halts at a post-processor whose result is [bad], blaming
    it, whatever post-processors follow. *)
Definition processor_stage_guarded
    (bad : Tensor -> option Tensor -> Prop) : Prop :=
  forall (sampler_order : list Z)
         (pre : list Processor) (p : Processor) (post : list Processor)
         (scores s_in : Tensor) (input_ids : InputIds),
    KoboldLogitsWarperList_call sampler_order pre input_ids scores = Ok s_in ->
    bad s_in (processor_call p s_in input_ids) ->
    KoboldLogitsWarperList_call sampler_order (pre ++ p :: post)
                                input_ids scores
    = Raise (AssertionError (processor_blame p)).

End WarperPipeline.

Arguments warper_str {Tensor InputIds} w.
Arguments value_is_valid {Tensor InputIds} w.
Arguments is_RepetitionPenalty {Tensor InputIds} w.
Arguments torch {Tensor InputIds} w _ _.
Arguments processor_str {Tensor InputIds} p.
Arguments processor_call {Tensor InputIds} p _ _.
Arguments warper_blame {Tensor InputIds} w.
Arguments processor_blame {Tensor InputIds} p.
Arguments warper_output {Tensor InputIds} w scores input_ids.
Arguments _apply_warpers {Tensor InputIds} from_id sampler_order scores input_ids.
Arguments apply_processors {Tensor InputIds} logits_processors scores input_ids.
Arguments KoboldLogitsWarperList_call {Tensor InputIds} from_id
  sampler_order logits_processors input_ids scores.
Arguments null_result {Tensor} input output.
Arguments null_or_reshaped {Tensor Shape} shape input output.
Arguments warper_stage_guarded {Tensor InputIds} from_id bad.
Arguments processor_stage_guarded {Tensor InputIds} from_id bad.

(** ** [basic_hf/class.py]: [_raw_generate]

    The decode loop [self.model.generate] and the random source of [torch]
    are outside the sources: the state of the random source is a value of a
    type [Rng] that is passed along, [torch.manual_seed] sets it from the
    seed, and the decode loop is a function of that state, of its input and
    of its keyword arguments, which also returns the state it leaves. *)

Section GenerationDriver.

Variables Rng Output GenerationSettings : Type.

(** the keyword arguments of [self.model.generate] *)
Record generate_kwargs : Type := mkKwargs {
  do_sample : bool;
  max_length : Z;
  repetition_penalty : Z;           (* the literal 1.0 *)
  bad_words_ids : list (list Z);
  use_cache : bool;
  num_return_sequences : Z
}.

(** what [_raw_generate] reads of [self] and of [utils.koboldai_vars] *)
Record model_backend : Type := mkBackend {
  tokenizer_encode : string -> list Z;     (* [self.tokenizer.encode] *)
  badwordsids : list (list Z);             (* [self.badwordsids] *)
  vars_max_length : Z;                     (* [utils.koboldai_vars.max_length] *)
  model_generate : Rng -> list (list Z) -> generate_kwargs -> Output * Rng
                                           (* [self.model.generate] *)
}.

Record GenerationResult : Type := mkGenerationResult {
  out_batches : Output;
  prompt : list Z;
  is_whole_generation : bool;
  output_includes_prompt : bool
}.

Variable manual_seed : Z -> Rng.           (* [torch.manual_seed] *)

Definition newline : string := String "010" EmptyString.

(** [additional_bad_words_ids] *)
Definition additional_bad_words_ids (self : model_backend) (single_line : bool)
  : list (list Z) :=
  if single_line then [tokenizer_encode self newline] else [].

(** the keyword arguments [_raw_generate] calls the decode loop with *)
Definition decode_kwargs (self : model_backend) (prompt_tokens : list Z)
    (max_new : Z) (single_line : bool) (batch_count : Z) : generate_kwargs :=
  {| do_sample := true;
     max_length := Z.min (Z.of_nat (List.length prompt_tokens) + max_new)
                         (vars_max_length self);
     repetition_penalty := 1;
     bad_words_ids := badwordsids self ++ additional_bad_words_ids self single_line;
     use_cache := true;
     num_return_sequences := batch_count |}.

(** [_raw_generate] on a list of prompt tokens, from the state [rng] of
    the random source; it returns the state it leaves. *)
Definition _raw_generate (self : model_backend) (rng : Rng)
    (prompt_tokens : list Z) (max_new : Z) (gen_settings : GenerationSettings)
    (single_line : bool) (batch_count : Z) (seed : option Z)
  : GenerationResult * Rng :=
  let gen_in := [prompt_tokens] in
  let rng1 := match seed with
              | Some s => manual_seed s
              | None => rng
              end in
  let (genout, rng2) :=
    model_generate self rng1 gen_in
      (decode_kwargs self prompt_tokens max_new single_line batch_count) in
  ({| out_batches := genout;
      prompt := prompt_tokens;
      is_whole_generation := false;
      output_includes_prompt := true |}, rng2).

(** two calls one after the other, the second from the state of the random
    source that the first one leaves *)
Definition generate_twice (self : model_backend) (rng : Rng)
    (prompt_tokens : list Z) (max_new : Z) (gen_settings : GenerationSettings)
    (single_line : bool) (batch_count : Z) (seed : option Z)
  : GenerationResult * GenerationResult :=
  let (first, rng1) :=
    _raw_generate self rng prompt_tokens max_new gen_settings single_line
                  batch_count seed in
  let (second, _) :=
    _raw_generate self rng1 prompt_tokens max_new gen_settings single_line
                  batch_count seed in
  (first, second).

End GenerationDriver.

Arguments tokenizer_encode {Rng Output} _ _.
Arguments badwordsids {Rng Output} _.
Arguments model_generate {Rng Output} _ _ _ _.
Arguments additional_bad_words_ids {Rng Output} self single_line.
Arguments decode_kwargs {Rng Output} self prompt_tokens max_new single_line batch_count.
Arguments _raw_generate {Rng Output GenerationSettings} manual_seed self rng
  prompt_tokens max_new gen_settings single_line batch_count seed.
Arguments generate_twice {Rng Output GenerationSettings} manual_seed self rng
  prompt_tokens max_new gen_settings single_line batch_count seed.
Arguments out_batches {Output} _.

(** ** [basic_hf/class.py]: the newline mode and the bad words of [_post_load]

    The part of [_post_load] from "Change newline behavior to match model
    quirks" on; the tokenizer overrides before it and the inherited
    [_post_load] after it are left out.  The vocabulary
    [self.tokenizer.get_vocab()] is the list of its items, and the
    tokenizer's [eos_token_id] an integer. *)

Module PostLoad.

Definition in_list (s : string) (l : list string) : bool :=
  existsb (String.eqb s) l.

(** [any(c in str(k) for c in "[]")] *)
Definition mentions_bracket (k : string) : bool :=
  utils.occurs "[" k || utils.occurs "]" k.

Record state : Type := mkState {
  model_type : string;              (* [self.model_type] *)
  newlinemode : string;             (* [utils.koboldai_vars.newlinemode] *)
  badwordsids : list (list Z)       (* [self.badwordsids] *)
}.

Definition _post_load
    (badwordsids_default : list (list Z))   (* [koboldai_settings.badwordsids_default] *)
    (config_model_type : string)            (* [str(self.model_config.model_type)] *)
    (newlinemode_before : string)
    (vocab : list (string * Z)) (eos_token_id : Z) : state :=
  let badwordsids0 := badwordsids_default in
  let model_type := config_model_type in
  (* Change newline behavior to match model quirks *)
  let newlinemode :=
    if String.eqb model_type "xglm" then "s"%string
    else if in_list model_type ["opt"; "bloom"]%string then "ns"%string
    else newlinemode_before in
  (* Clean up tokens that cause issues *)
  let badwordsids :=
    if (if list_eq_dec (list_eq_dec Z.eq_dec) badwordsids0 badwordsids_default
        then true else false)
       && negb (in_list model_type ["gpt2"; "gpt_neo"; "gptj"]%string)
    then
      let bracketed :=
        map (fun kv => [snd kv])
            (filter (fun kv => mentions_bracket (fst kv)) vocab) in
      if String.eqb newlinemode "n"
      then (bracketed ++ [[eos_token_id]])%list
      else bracketed
    else badwordsids0 in
  {| model_type := model_type;
     newlinemode := newlinemode;
     badwordsids := badwordsids |}.

End PostLoad.

(** ** [basic_hf/class.py]: [get_local_model_path]

    The file system is what [os.path.exists] and [os.path.isdir] answer,
    and [os.path.join] is taken as it is; [self.path] is [None] or a
    string.  A bare [assert] raises an [AssertionError] without message. *)

Section LocalModelPath.

Variable path_exists : string -> bool.            (* [os.path.exists] *)
Variable path_isdir : string -> bool.             (* [os.path.isdir] *)
Variable path_join : string -> string -> string.  (* [os.path.join] *)

Definition custom_model_names : list string :=
  ["NeoCustom"; "GPT2Custom"; "TPUMeshTransformerGPTJ";
   "TPUMeshTransformerGPTNeoX"]%string.

Definition get_local_model_path (path : option string) (model_name : string)
    (legacy ignore_existance : bool) : result (option string) :=
  match (match path with
         | Some p => if path_exists p then Some p else None
         | None => None
         end) with
  | Some p => Ok (Some p)
  | None =>
      if PostLoad.in_list model_name custom_model_names then
        match path with
        | None => Raise (AssertionError "")
        | Some EmptyString => Raise (AssertionError "")
        | Some model_path =>
            (* Path can be absolute or relative to models directory *)
            if path_exists model_path then Ok (Some model_path)
            else
              let model_path := path_join "models" model_path in
              if path_exists model_path then Ok (Some model_path)
              else Raise (AssertionError "")
        end
      else
        let basename := utils.replace model_name "/" "_" in
        let ret := if legacy then basename else path_join "models" basename in
        if path_isdir ret || ignore_existance then Ok (Some ret) else Ok None
  end.

End LocalModelPath.

(** ** Small instances on which the statements are exercised *)

Module Instances.

(** a score tensor as its rows, integers standing for the scores *)
Definition tensor : Type := list (list Z).

Definition tensor_shape (t : tensor) : nat * nat :=
  (List.length t, match t with [] => O | row :: _ => List.length row end).

Definition add_to_all (d : Z) (t : tensor) : tensor := map (map (Z.add d)) t.

(** lowers the score of every token of the history *)
Definition penalise (input_ids : list nat) (t : tensor) : tensor :=
  map (fun row =>
         map (fun p => if existsb (Nat.eqb (fst p)) input_ids
                       then snd p - 1 else snd p)
             (combine (seq 0 (List.length row)) row)) t.

Definition shift_warper : Warper tensor (list nat) :=
  {| warper_str := "Shift"; value_is_valid := true;
     is_RepetitionPenalty := false;
     torch := fun t _ => Some (add_to_all 1 t) |}.

Definition disabled_warper : Warper tensor (list nat) :=
  {| warper_str := "Disabled"; value_is_valid := false;
     is_RepetitionPenalty := false;
     torch := fun t _ => Some (add_to_all 100 t) |}.

Definition null_warper : Warper tensor (list nat) :=
  {| warper_str := "Null"; value_is_valid := true;
     is_RepetitionPenalty := false;
     torch := fun _ _ => None |}.

Definition truncating_warper : Warper tensor (list nat) :=
  {| warper_str := "Truncating"; value_is_valid := true;
     is_RepetitionPenalty := false;
     torch := fun t _ => Some (map (@removelast Z) t) |}.

Definition repetition_penalty_warper : Warper tensor (list nat) :=
  {| warper_str := "RepetitionPenalty"; value_is_valid := true;
     is_RepetitionPenalty := true;
     torch := fun t ids => match ids with
                           | Some ids => Some (penalise ids t)
                           | None => None
                           end |}.

Definition from_id (sid : Z) : Warper tensor (list nat) :=
  if sid =? 1 then shift_warper
  else if sid =? 2 then null_warper
  else if sid =? 3 then truncating_warper
  else if sid =? 6 then repetition_penalty_warper
  else disabled_warper.

Definition bias_processor : Processor tensor (list nat) :=
  {| processor_str := "bias"; processor_call := fun t _ => Some (add_to_all 10 t) |}.

Definition null_processor : Processor tensor (list nat) :=
  {| processor_str := "null"; processor_call := fun _ _ => None |}.

Definition truncating_processor : Processor tensor (list nat) :=
  {| processor_str := "truncating";
     processor_call := fun t _ => Some (map (@removelast Z) t) |}.

Definition scores0 : tensor := [[5; 7; 9]].

(** a decode loop that draws its one new token from the random source *)
Definition backend : model_backend Z (list (list Z)) :=
  {| tokenizer_encode := fun s => [Z.of_nat (String.length s) + 197];
     badwordsids := [[58]; [60]];
     vars_max_length := 2048;
     model_generate := fun rng gen_in kw =>
                         (map (fun row => row ++ [rng mod 50257]) gen_in,
                          rng * 6364136223846793005 + 1) |}.

End Instances.

(** * Properties of the story register *)

Section OrderedDictFacts.

Import OrderedDict.

Lemma keys_setitem k v d k' :
  In k' (keys (OrderedDict.setitem k v d)) <-> k' = k \/ In k' (keys d).
Proof.
  induction d as [|[k0 v0] d IH]; simpl.
  - intuition.
  - destruct (Z.eqb_spec k0 k) as [->|Hne]; simpl.
    + intuition.
    + rewrite IH. intuition.
Qed.



Lemma popitem_snoc d kv : OrderedDict.popitem (d ++ [kv]) = Some (kv, d).
Proof.
  induction d as [|kv0 d IH]; simpl.
  - reflexivity.
  - now rewrite IH.
Qed.

Lemma popitem_Some d kv rest :
  OrderedDict.popitem d = Some (kv, rest) -> d = rest ++ [kv].
Proof.
  revert kv rest. induction d as [|kv0 d IH]; simpl; intros kv rest H.
  - discriminate.
  - destruct (OrderedDict.popitem d) as [[last rest']|] eqn:E.
    + injection H as <- <-. simpl. f_equal. now apply IH.
    + injection H as <- <-. destruct d as [|kv1 d]; [reflexivity|].
      simpl in E. destruct (OrderedDict.popitem d) as [[? ?]|]; discriminate.
Qed.

Lemma popitem_None d : OrderedDict.popitem d = None <-> d = [].
Proof.
  split; [|now intros ->].
  destruct d as [|kv d]; [reflexivity|]. simpl.
  destruct (OrderedDict.popitem d) as [[? ?]|]; discriminate.
Qed.

Lemma last_key_snoc d k v : last_key (d ++ [(k, v)]) = Some k.
Proof.
  induction d as [|[k0 v0] d IH]; simpl.
  - reflexivity.
  - rewrite IH. destruct d; reflexivity.
Qed.

Lemma setitem_absent k v d :
  ~ In k (keys d) -> OrderedDict.setitem k v d = d ++ [(k, v)].
Proof.
  induction d as [|[k0 v0] d IH]; simpl; intros H.
  - reflexivity.
  - destruct (Z.eqb_spec k0 k) as [->|Hne]; [tauto|].
    f_equal. apply IH. tauto.
Qed.

End OrderedDictFacts.

Lemma count_from sequence (a : Z) :
  fold_left (fun acc (_ : Z * string) => acc + 1) sequence a
  = a + Z.of_nat (List.length sequence).
Proof.
  revert a. induction sequence as [|x sequence IH]; intros a; simpl List.length.
  - simpl. lia.
  - simpl fold_left. rewrite IH. lia.
Qed.

Lemma next_id_init sequence :
  next_id (init sequence) = Z.of_nat (List.length sequence).
Proof. unfold init. simpl. now rewrite count_from. Qed.

Lemma next_id_append r v : next_id (append r v) = next_id r + 1.
Proof. reflexivity. Qed.

Lemma pop_snoc r d k v :
  dict r = d ++ [(k, v)] ->
  pop r = Ok (v, {| dict := d; next_id := next_id r |}).
Proof.
  intros H. unfold pop, popitem. rewrite H, popitem_snoc.
  reflexivity.
Qed.

Lemma od_getitem_setitem_eq k v d :
  OrderedDict.getitem k (OrderedDict.setitem k v d) = Some v.
Proof.
  induction d as [|[k0 v0] d IH]; simpl.
  - now rewrite Z.eqb_refl.
  - destruct (Z.eqb_spec k0 k) as [->|Hne]; simpl.
    + now rewrite Z.eqb_refl.
    + destruct (Z.eqb_spec k0 k); [contradiction|exact IH].
Qed.

(** the text of an [append] is read back under the id the counter held *)
Lemma getitem_append r v : getitem (append r v) (next_id r) = Ok v.
Proof. unfold getitem. simpl. now rewrite od_getitem_setitem_eq. Qed.

(** ** Histories *)

Lemma run_cons r c calls :
  run r (c :: calls)
  = (fst (run (fst (step r c)) calls),
     snd (step r c) :: snd (run (fst (step r c)) calls)).
Proof.
  simpl. destruct (step r c) as [r1 e]. simpl.
  destruct (run r1 calls) as [r2 es]. reflexivity.
Qed.

Lemma run_app r calls1 calls2 :
  run r (calls1 ++ calls2)
  = (fst (run (fst (run r calls1)) calls2),
     snd (run r calls1) ++ snd (run (fst (run r calls1)) calls2)).
Proof.
  revert r. induction calls1 as [|c calls1 IH]; intros r.
  - simpl. now destruct (run r calls2).
  - rewrite <- app_comm_cons, !run_cons, IH. reflexivity.
Qed.

Lemma appended_ids_app es1 es2 :
  appended_ids (es1 ++ es2) = (appended_ids es1 ++ appended_ids es2)%list.
Proof.
  induction es1 as [|e es1 IH]; simpl; [reflexivity|].
  destruct e; simpl; now rewrite IH.
Qed.


Lemma step_append_or_pop_next_id r c :
  append_or_pop c = true ->
  next_id (fst (step r c)) = next_id r + (if is_append c then 1 else 0).
Proof.
  destruct c; simpl; try discriminate; intros _.
  - reflexivity.
  - unfold popitem. destruct (OrderedDict.popitem (dict r)) as [[[k v] rest]|];
      simpl; lia.
Qed.

Lemma step_append_or_pop_ids r c :
  append_or_pop c = true ->
  appended_ids [snd (step r c)] = if is_append c then [next_id r] else [].
Proof.
  destruct c; simpl; try discriminate; intros _.
  - reflexivity.
  - unfold popitem. destruct (OrderedDict.popitem (dict r)) as [[[k v] rest]|];
      reflexivity.
Qed.

(** The appends of a history of appends and pops are numbered from the
    counter on, one after the other. *)
Lemma run_appended_ids calls : forall r,
  forallb append_or_pop calls = true ->
  appended_ids (snd (run r calls))
  = ids_from (next_id r) (List.length (filter is_append calls))
  /\ next_id (fst (run r calls))
     = next_id r + Z.of_nat (List.length (filter is_append calls)).
Proof.
  induction calls as [|c calls IH]; intros r H.
  - simpl. split; [reflexivity|lia].
  - simpl in H. apply andb_prop in H. destruct H as [Hc H].
    rewrite run_cons. cbn [fst snd].
    destruct (IH (fst (step r c)) H) as [IHids IHnext].
    pose proof (step_append_or_pop_next_id r c Hc) as Hn.
    pose proof (step_append_or_pop_ids r c Hc) as Hi.
    change (snd (step r c) :: snd (run (fst (step r c)) calls))
      with ([snd (step r c)] ++ snd (run (fst (step r c)) calls))%list.
    rewrite appended_ids_app, Hi, IHids, IHnext, Hn.
    simpl filter. destruct (is_append c); simpl List.length.
    + split; [reflexivity|lia].
    + rewrite Z.add_0_r. split; [reflexivity|lia].
Qed.

Lemma ids_from_length a n : List.length (ids_from a n) = n.
Proof. revert a. induction n; intros a; simpl; [reflexivity|now rewrite IHn]. Qed.

Lemma ids_from_nth n : forall a i id,
  nth_error (ids_from a n) i = Some id -> id = a + Z.of_nat i.
Proof.
  induction n as [|n IH]; intros a i id H.
  - destruct i; discriminate.
  - destruct i as [|i]; simpl in H.
    + injection H as <-. simpl. lia.
    + apply IH in H. lia.
Qed.

Lemma ids_from_lower n : forall a id, In id (ids_from a n) -> a <= id.
Proof.
  induction n as [|n IH]; intros a id H; simpl in H.
  - contradiction.
  - destruct H as [<-|H]; [lia|]. apply IH in H. lia.
Qed.

Lemma ids_from_sorted n : forall a, StronglySorted Z.lt (ids_from a n).
Proof.
  induction n as [|n IH]; intros a; simpl.
  - constructor.
  - constructor; [apply IH|].
    apply Forall_forall. intros id H. apply ids_from_lower in H. lia.
Qed.

Lemma ids_from_nth_lt n : forall a i,
  (i < n)%nat -> nth_error (ids_from a n) i = Some (a + Z.of_nat i).
Proof.
  induction n as [|n IH]; intros a i Hi; [lia|].
  destruct i as [|i]; simpl.
  - f_equal. lia.
  - rewrite IH by lia. f_equal. lia.
Qed.

Lemma run_snoc_append r pre v :
  fst (run r (pre ++ [CallAppend v])) = append (fst (run r pre)) v.
Proof. rewrite run_app. reflexivity. Qed.

(** C1.  In every history of appends and pops on a register, each append
    call is assigned an id; the id of the N-th append is the initial
    [next_id] plus N - 1; the ids of the appends are strictly increasing
    whatever pops come between them; the counter ends at the initial
    [next_id] plus the number of appends, and every single append raises it
    by exactly 1.  The id is where the text goes: the N-th append of the
    history finds the counter at the initial [next_id] plus N - 1, and in
    the register it leaves that id is live and reads as the appended
    text. *)
Theorem append_ids_consecutive (r : KoboldStoryRegister) (calls : list call) :
  forallb append_or_pop calls = true ->
  let ids := appended_ids (snd (run r calls)) in
  List.length ids = List.length (filter is_append calls)
  /\ (forall (N : nat) (id : Z),
        (1 <= N)%nat -> nth_error ids (N - 1) = Some id ->
        id = next_id r + Z.of_nat N - 1)
  /\ StronglySorted Z.lt ids
  /\ next_id (fst (run r calls)) = next_id r + Z.of_nat (List.length ids)
  /\ (forall r0 v, next_id (append r0 v) = next_id r0 + 1)
  /\ (forall pre v post,
        calls = (pre ++ CallAppend v :: post)%list ->
        let N := S (List.length (filter is_append pre)) in
        let id := next_id r + Z.of_nat N - 1 in
        nth_error ids (N - 1) = Some id
        /\ next_id (fst (run r pre)) = id
        /\ getitem (fst (run r (pre ++ [CallAppend v]))) id = Ok v
        /\ In id (OrderedDict.keys
                    (dict (fst (run r (pre ++ [CallAppend v]))))))
  /\ (forall r0 v, getitem (append r0 v) (next_id r0) = Ok v
                   /\ In (next_id r0) (OrderedDict.keys (dict (append r0 v)))).
Proof.
  intros H ids. destruct (run_appended_ids calls r H) as [Hids Hnext].
  subst ids. rewrite Hids, ids_from_length.
  refine (conj eq_refl (conj _ (conj _ (conj Hnext (conj _ (conj _ _)))))).
  - intros N id HN Hnth. apply ids_from_nth in Hnth. lia.
  - apply ids_from_sorted.
  - reflexivity.
  - intros pre v post Hcalls N id. subst N id.
    assert (Hpre : forallb append_or_pop pre = true).
    { rewrite Hcalls, forallb_app in H. now apply andb_prop in H. }
    destruct (run_appended_ids pre r Hpre) as [_ Hnpre].
    assert (Hid : next_id r
                  + Z.of_nat (S (List.length (filter is_append pre))) - 1
                  = next_id (fst (run r pre))) by lia.
    rewrite Hid, run_snoc_append.
    refine (conj _ (conj eq_refl (conj (getitem_append _ v) _))).
    + rewrite Hcalls, filter_app. cbn [filter is_append].
      rewrite length_app. cbn [List.length].
      rewrite ids_from_nth_lt by lia. f_equal. lia.
    + simpl. apply keys_setitem. now left.
  - intros r0 v. split; [apply getitem_append|].
    simpl. apply keys_setitem. now left.
Qed.

Lemma append_ids_consecutive_witness :
  let r := init [(0, "Once upon a time"%string)] in
  let calls := [CallAppend "a"; CallPop; CallPop; CallPop; CallAppend "b";
                CallAppend "c"] in
  forallb append_or_pop calls = true
  /\ nth_error (appended_ids (snd (run r calls))) 2 = Some 3
  /\ StronglySorted Z.lt (appended_ids (snd (run r calls)))
  /\ next_id (fst (run r calls)) = 4
  /\ getitem (fst (run r [CallAppend "a"; CallPop; CallPop; CallPop;
                          CallAppend "b"])) 2 = Ok "b"%string.
Proof.
  intros r calls.
  destruct (append_ids_consecutive r calls eq_refl)
    as (_ & _ & Hs & Hn & _ & Hstore & _).
  destruct (Hstore [CallAppend "a"; CallPop; CallPop; CallPop] "b"%string
              [CallAppend "c"] eq_refl) as (_ & _ & Hget & _).
  split; [reflexivity|]. split; [reflexivity|]. split; [exact Hs|].
  split; [exact Hn|exact Hget].
Defined.

(** ** The counter and the ids *)







(** ** [pop] *)







(** A text that was just appended under an id that was not live is what
    [pop] returns, and the dictionary is as before the [append]. *)
Lemma pop_after_append r v :
  ~ In (next_id r) (OrderedDict.keys (dict r)) ->
  pop (append r v) = Ok (v, {| dict := dict r; next_id := next_id r + 1 |}).
Proof.
  intros H. apply (pop_snoc (append r v) (dict r) (next_id r) v).
  simpl. now apply setitem_absent.
Qed.

(** The scenario of the specification: from the register of the one entry
    0, an append is assigned the id 1 and is then the last key; [pop]
    returns its text and the last key is 0 again. *)
Example fox_scenario :
  let r0 := init [(0, "Once upon a time"%string)] in
  let r1 := append r0 " there was a fox." in
  snd (step r0 (CallAppend " there was a fox.")) = Appended 1
  /\ get_last_key r1 = Ok 1
  /\ getitem r1 1 = Ok " there was a fox."%string
  /\ exists r2, pop r1 = Ok (" there was a fox."%string, r2)
                /\ get_last_key r2 = Ok 0.
Proof.
  repeat split. eexists. split; reflexivity.
Qed.

(** ** [get_first_key] and [get_last_key] *)

(** C8.  [get_first_key] and [get_last_key] never raise: each returns a
    key on every register; on an empty register that key is -1; on a
    register whose entries in insertion order start with the id k,
    [get_first_key] returns k, and on one whose entries end with the id k,
    [get_last_key] returns k. *)
Theorem first_and_last_key (r : KoboldStoryRegister) :
  (exists k, get_first_key r = Ok k)
  /\ (exists k, get_last_key r = Ok k)
  /\ (dict r = [] -> get_first_key r = Ok (-1) /\ get_last_key r = Ok (-1))
  /\ (forall k v d, dict r = (k, v) :: d -> get_first_key r = Ok k)
  /\ (forall d k v, dict r = (d ++ [(k, v)])%list -> get_last_key r = Ok k).
Proof.
  assert (Hfirst : forall k v d, dict r = (k, v) :: d -> get_first_key r = Ok k).
  { intros k v d H. unfold get_first_key, next_iter, len. now rewrite H. }
  assert (Hlast : forall d k v, dict r = (d ++ [(k, v)])%list ->
                                get_last_key r = Ok k).
  { intros d k v H. unfold get_last_key, next_reversed, len.
    rewrite H, last_key_snoc, length_app. simpl.
    destruct (Z.eqb_spec (Z.of_nat (List.length d + 1)) 0); [lia|reflexivity]. }
  assert (Hempty : dict r = [] ->
                   get_first_key r = Ok (-1) /\ get_last_key r = Ok (-1)).
  { intros H. unfold get_first_key, get_last_key, len. now rewrite H. }
  refine (conj _ (conj _ (conj Hempty (conj Hfirst Hlast)))).
  - destruct (dict r) as [|[k v] d] eqn:E.
    + exists (-1). now apply Hempty.
    + exists k. now apply (Hfirst k v d).
  - destruct (OrderedDict.popitem (dict r)) as [[[k v] rest]|] eqn:E.
    + apply popitem_Some in E. exists k. now apply (Hlast rest k v).
    + apply popitem_None in E. exists (-1). now apply Hempty.
Qed.

Lemma first_and_last_key_witness :
  let r := init [(3, "c"%string); (0, "a"%string); (7, "g"%string)] in
  get_first_key (init []) = Ok (-1)
  /\ get_last_key (init []) = Ok (-1)
  /\ get_first_key r = Ok 3
  /\ get_last_key r = Ok 7.
Proof.
  intros r.
  destruct (first_and_last_key (init [])) as (_ & _ & He & _).
  destruct (first_and_last_key r) as (_ & _ & _ & Hf & Hl).
  destruct (He eq_refl) as [He1 He2].
  refine (conj He1 (conj He2 (conj _ _))).
  - apply (Hf 3 "c"%string [(0, "a"%string); (7, "g"%string)]). reflexivity.
  - apply (Hl [(3, "c"%string); (0, "a"%string)] 7 "g"%string). reflexivity.
Defined.

(** ** The constructor *)

(** C10.  A register constructed from a list of n pairs has [next_id] n,
    whatever the ids of the pairs are: renumbering the pairs changes
    nothing of it. *)
Theorem init_counts_pairs (sequence : list (Z * string)) :
  next_id (init sequence) = Z.of_nat (List.length sequence)
  /\ (forall f : Z -> Z,
        next_id (init (map (fun kv => (f (fst kv), snd kv)) sequence))
        = next_id (init sequence)).
Proof.
  split.
  - apply next_id_init.
  - intros f. now rewrite !next_id_init, length_map.
Qed.

(** * Properties of the warper pipeline *)

Section WarperPipelineFacts.

Variables Tensor InputIds : Type.
Variable from_id : Z -> Warper Tensor InputIds.

Local Abbreviation valid := (fun sid : Z => value_is_valid (from_id sid)).

Lemma apply_warpers_skip sid rest scores input_ids :
  valid sid = false ->
  _apply_warpers from_id (sid :: rest) scores input_ids
  = _apply_warpers from_id rest scores input_ids.
Proof. intros H. simpl in *. now rewrite H. Qed.

Lemma apply_warpers_app pre : forall rest scores input_ids,
  _apply_warpers from_id (pre ++ rest) scores input_ids
  = match _apply_warpers from_id pre scores input_ids with
    | Ok scores' => _apply_warpers from_id rest scores' input_ids
    | Raise e => Raise e
    end.
Proof.
  induction pre as [|sid pre IH]; intros rest scores input_ids; simpl.
  - reflexivity.
  - destruct (value_is_valid (from_id sid)); simpl.
    + destruct (warper_output (from_id sid) scores input_ids); [apply IH|reflexivity].
    + apply IH.
Qed.

Lemma apply_processors_app (pre : list (Processor Tensor InputIds)) :
  forall rest scores input_ids,
  apply_processors (pre ++ rest) scores input_ids
  = match apply_processors pre scores input_ids with
    | Ok scores' => apply_processors rest scores' input_ids
    | Raise e => Raise e
    end.
Proof.
  induction pre as [|p pre IH]; intros rest scores input_ids; simpl.
  - reflexivity.
  - destruct (processor_call p scores input_ids); [apply IH|reflexivity].
Qed.

Lemma apply_warpers_filter sampler_order : forall scores input_ids,
  _apply_warpers from_id sampler_order scores input_ids
  = _apply_warpers from_id (filter valid sampler_order) scores input_ids.
Proof.
  induction sampler_order as [|sid rest IH]; intros scores input_ids.
  - reflexivity.
  - simpl filter. destruct (valid sid) eqn:E.
    + simpl. rewrite E. simpl.
      destruct (warper_output (from_id sid) scores input_ids);
        [apply IH|reflexivity].
    + rewrite apply_warpers_skip by exact E. apply IH.
Qed.

Lemma filter_none_valid sampler_order :
  forallb (fun sid => negb (valid sid)) sampler_order = true ->
  filter valid sampler_order = [].
Proof.
  induction sampler_order as [|sid rest IH]; simpl; intros H.
  - reflexivity.
  - apply andb_prop in H. destruct H as [Hsid H].
    apply negb_true_iff in Hsid. rewrite Hsid. now apply IH.
Qed.

(** C3.  With an empty sampler order the warpers return the scores they
    were given; so they do when no configured warper has a valid value,
    and the whole pipeline then hands the input scores to the
    post-processors; a warper whose value is not valid is skipped
    wherever it stands in the order, so the warpers compute what the
    valid ones among them compute. *)
Theorem invalid_warpers_are_skipped
    (sampler_order : list Z) (scores : Tensor) (input_ids : InputIds) :
  _apply_warpers from_id [] scores input_ids = Ok scores
  /\ (forallb (fun sid => negb (value_is_valid (from_id sid))) sampler_order
      = true ->
      _apply_warpers from_id sampler_order scores input_ids = Ok scores
      /\ KoboldLogitsWarperList_call from_id sampler_order [] input_ids scores
         = Ok scores
      /\ forall logits_processors,
           KoboldLogitsWarperList_call from_id sampler_order
             logits_processors input_ids scores
           = apply_processors logits_processors scores input_ids)
  /\ (forall pre sid post,
        value_is_valid (from_id sid) = false ->
        _apply_warpers from_id (pre ++ sid :: post) scores input_ids
        = _apply_warpers from_id (pre ++ post) scores input_ids)
  /\ _apply_warpers from_id sampler_order scores input_ids
     = _apply_warpers from_id
         (filter (fun sid => value_is_valid (from_id sid)) sampler_order)
         scores input_ids.
Proof.
  split; [reflexivity|]. split; [|split].
  - intros H.
    assert (Hw : _apply_warpers from_id sampler_order scores input_ids
                 = Ok scores).
    { rewrite apply_warpers_filter, (filter_none_valid _ H). reflexivity. }
    unfold KoboldLogitsWarperList_call. rewrite Hw. auto.
  - intros pre sid post H. rewrite !apply_warpers_app.
    destruct (_apply_warpers from_id pre scores input_ids); [|reflexivity].
    now apply apply_warpers_skip.
  - apply apply_warpers_filter.
Qed.

Lemma null_warper_stage_guarded : warper_stage_guarded from_id null_result.
Proof.
  intros pre sid post logits_processors scores s_in input_ids Hpre Hv Hnull.
  unfold null_result in Hnull. unfold KoboldLogitsWarperList_call.
  rewrite apply_warpers_app, Hpre. simpl. rewrite Hv, Hnull. reflexivity.
Qed.

Lemma null_processor_stage_guarded :
  processor_stage_guarded from_id null_result.
Proof.
  intros sampler_order pre p post scores s_in input_ids Hpre Hnull.
  unfold null_result in Hnull. unfold KoboldLogitsWarperList_call in *.
  destruct (_apply_warpers from_id sampler_order scores input_ids)
    as [s|e]; [|discriminate].
  rewrite apply_processors_app, Hpre. simpl. now rewrite Hnull.
Qed.

(** C4, amended.  A valid warper whose result is null stops the pipeline
    with an assertion error that names the warper, whatever warpers and
    post-processors follow it; a post-processor whose result is null
    stops it with an assertion error that names the post-processor,
    whatever post-processors follow it.  (The shape of a result is not
    looked at.) *)
Theorem null_result_halts_pipeline :
  (forall pre sid post logits_processors scores s_in input_ids,
      _apply_warpers from_id pre scores input_ids = Ok s_in ->
      value_is_valid (from_id sid) = true ->
      warper_output (from_id sid) s_in input_ids = None ->
      KoboldLogitsWarperList_call from_id (pre ++ sid :: post)
        logits_processors input_ids scores
      = Raise (AssertionError (warper_blame (from_id sid))))
  /\ (forall sampler_order pre p post scores s_in input_ids,
        KoboldLogitsWarperList_call from_id sampler_order pre input_ids scores
        = Ok s_in ->
        processor_call p s_in input_ids = None ->
        KoboldLogitsWarperList_call from_id sampler_order (pre ++ p :: post)
          input_ids scores
        = Raise (AssertionError (processor_blame p))).
Proof.
  split.
  - exact null_warper_stage_guarded.
  - exact null_processor_stage_guarded.
Qed.

End WarperPipelineFacts.

Lemma invalid_warpers_are_skipped_witness :
  forallb (fun sid => negb (value_is_valid (Instances.from_id sid))) [0; 4; 5]
  = true
  /\ KoboldLogitsWarperList_call Instances.from_id [0; 4; 5] []
       [0%nat] Instances.scores0
     = Ok Instances.scores0
  /\ _apply_warpers Instances.from_id [1; 0; 6] Instances.scores0 [0%nat]
     = _apply_warpers Instances.from_id [1; 6] Instances.scores0 [0%nat].
Proof.
  destruct (invalid_warpers_are_skipped _ _ Instances.from_id
              [0; 4; 5] Instances.scores0 [0%nat]) as (_ & Hall & _).
  destruct (invalid_warpers_are_skipped _ _ Instances.from_id
              [] Instances.scores0 [0%nat]) as (_ & _ & Hskip & _).
  split; [reflexivity|]. split.
  - apply Hall. reflexivity.
  - apply (Hskip [1] 0 [6]). reflexivity.
Defined.

(** C4, as the specification states it, fails for a result of another
    shape: the warper that drops the last score of every row is followed by
    the next warper, which receives the narrower tensor, and the pipeline
    returns a tensor of another shape than its input; so it is with a
    post-processor. *)
Lemma reshaped_result_counterexample :
  ~ warper_stage_guarded Instances.from_id
      (null_or_reshaped Instances.tensor_shape)
  /\ ~ processor_stage_guarded Instances.from_id
         (null_or_reshaped Instances.tensor_shape).
Proof.
  split; intros H.
  - specialize (H [] 3 [1] [] Instances.scores0 Instances.scores0 [0%nat]
                  eq_refl eq_refl).
    assert (Hbad : null_or_reshaped Instances.tensor_shape Instances.scores0
                     (warper_output (Instances.from_id 3) Instances.scores0
                                    [0%nat])).
    { right. exists [[5; 7]]. split; [reflexivity|]. discriminate. }
    specialize (H Hbad). discriminate H.
  - specialize (H [] [] Instances.truncating_processor
                  [Instances.bias_processor]
                  Instances.scores0 Instances.scores0 [0%nat] eq_refl).
    assert (Hbad : null_or_reshaped Instances.tensor_shape Instances.scores0
                     (processor_call Instances.truncating_processor
                                     Instances.scores0 [0%nat])).
    { right. exists [[5; 7]]. split; [reflexivity|]. discriminate. }
    specialize (H Hbad). discriminate H.
Qed.

Lemma null_result_halts_pipeline_witness :
  KoboldLogitsWarperList_call Instances.from_id [1; 0; 2; 3]
    [Instances.bias_processor] [0%nat] Instances.scores0
  = Raise (AssertionError "Scores are None; warper 'Null' is to blame")
  /\ KoboldLogitsWarperList_call Instances.from_id [1; 6]
       [Instances.bias_processor; Instances.null_processor;
        Instances.truncating_processor] [0%nat] Instances.scores0
     = Raise (AssertionError "Scores are None; processor 'null' is to blame").
Proof.
  destruct (null_result_halts_pipeline _ _ Instances.from_id) as [Hw Hp].
  split.
  - apply (Hw [1; 0] 2 [3] [Instances.bias_processor] Instances.scores0
              [[6; 8; 10]] [0%nat]); reflexivity.
  - apply (Hp [1; 6] [Instances.bias_processor] Instances.null_processor
              [Instances.truncating_processor] Instances.scores0
              [[15; 18; 20]] [0%nat]); reflexivity.
Defined.

(** * Properties of [_raw_generate] *)

Section GenerationDriverFacts.

Variables Rng Output GenerationSettings : Type.
Variable manual_seed : Z -> Rng.

(** The decode loop is called with the keyword arguments of
    [decode_kwargs], from the seeded state when a seed is given. *)
Lemma raw_generate_calls_decode_loop
    (self : model_backend Rng Output) rng prompt_tokens max_new
    (gen_settings : GenerationSettings) single_line batch_count seed :
  out_batches
    (fst (_raw_generate manual_seed self rng prompt_tokens max_new
            gen_settings single_line batch_count seed))
  = fst (model_generate self
           (match seed with Some s => manual_seed s | None => rng end)
           [prompt_tokens]
           (decode_kwargs self prompt_tokens max_new single_line batch_count)).
Proof.
  unfold _raw_generate.
  destruct (model_generate self _ _ _) as [genout rng2]. reflexivity.
Qed.

(** C5.  The bad-word ids the decode loop is called with are the
    configured ones when [single_line] is false, and the configured ones
    followed by the encoding of the newline when it is true: a token
    sequence is among them exactly when it is configured or it is the
    encoded newline under [single_line]; so the encoded newline is always
    among them under [single_line], whatever is configured.  These are the
    arguments [_raw_generate] runs the decode loop with. *)
Theorem effective_bad_words
    (self : model_backend Rng Output) (prompt_tokens : list Z)
    (max_new batch_count : Z) :
  bad_words_ids (decode_kwargs self prompt_tokens max_new false batch_count)
  = badwordsids self
  /\ bad_words_ids (decode_kwargs self prompt_tokens max_new true batch_count)
     = (badwordsids self ++ [tokenizer_encode self newline])%list
  /\ (forall single_line w,
        In w (bad_words_ids
                (decode_kwargs self prompt_tokens max_new single_line
                               batch_count))
        <-> In w (badwordsids self)
            \/ (single_line = true /\ w = tokenizer_encode self newline))
  /\ In (tokenizer_encode self newline)
        (bad_words_ids
           (decode_kwargs self prompt_tokens max_new true batch_count))
  /\ (forall rng (gen_settings : GenerationSettings) single_line seed,
        out_batches
          (fst (_raw_generate manual_seed self rng prompt_tokens max_new
                  gen_settings single_line batch_count seed))
        = fst (model_generate self
                 (match seed with Some s => manual_seed s | None => rng end)
                 [prompt_tokens]
                 (decode_kwargs self prompt_tokens max_new single_line
                                batch_count))).
Proof.
  split; [apply app_nil_r|]. split; [reflexivity|]. split; [|split].
  - intros single_line w. simpl. rewrite in_app_iff.
    destruct single_line; simpl.
    + split.
      * intros [H|[H|[]]]; [now left|right; split; [reflexivity|now symmetry]].
      * intros [H|[_ H]]; [now left|right; left; now symmetry].
    + split.
      * intros [H|[]]. now left.
      * intros [H|[H _]]; [now left|discriminate].
  - simpl. apply in_app_iff. right. now left.
  - intros. apply raw_generate_calls_decode_loop.
Qed.

(** C6.  Two calls of [_raw_generate] on the same backend with the same
    seed, the same prompt tokens and the same arguments, the second run
    after the first, return the same result, and so the same output
    tokens; and a seeded call returns the same result and leaves the random
    source in the same state whatever state the random source was in
    before: it is set from the seed before the decode loop runs. *)
Theorem seeded_generation_is_deterministic
    (self : model_backend Rng Output) (rng rng' : Rng)
    (prompt_tokens : list Z) (max_new : Z)
    (gen_settings : GenerationSettings) (single_line : bool)
    (batch_count seed : Z) :
  (let (first, second) :=
     generate_twice manual_seed self rng prompt_tokens max_new gen_settings
                    single_line batch_count (Some seed) in
   first = second /\ out_batches first = out_batches second)
  /\ _raw_generate manual_seed self rng prompt_tokens max_new gen_settings
                   single_line batch_count (Some seed)
     = _raw_generate manual_seed self rng' prompt_tokens max_new gen_settings
                     single_line batch_count (Some seed).
Proof.
  split; [|reflexivity].
  unfold generate_twice, _raw_generate.
  destruct (model_generate self (manual_seed seed) [prompt_tokens] _)
    as [genout rng1].
  split; reflexivity.
Qed.

End GenerationDriverFacts.

(** Without a seed the output follows the state the random source is in:
    on the instance, two states give two outputs, and the second of two
    calls in a row differs from the first. *)
Lemma unseeded_generation_follows_rng :
  out_batches
    (fst (_raw_generate (fun s => s) Instances.backend 1 [10; 11] 1 tt false 1 None))
  <> out_batches
       (fst (_raw_generate (fun s => s) Instances.backend 2 [10; 11] 1 tt false 1 None))
  /\ (let (first, second) :=
        generate_twice (fun s => s) Instances.backend 1 [10; 11] 1 tt false 1 None in
      out_batches first <> out_batches second).
Proof. split; discriminate. Qed.

(** * Properties of [trimincompletesentence] *)

(** ** What [trimincompletesentence] computes on every text *)

Section TrimFacts.

Import utils.

Lemma is_terminal_cases c :
  is_terminal c = true -> c = "."%char \/ c = "!"%char \/ c = "?"%char.
Proof.
  unfold is_terminal. intros H.
  apply orb_prop in H. destruct H as [H|H].
  - apply orb_prop in H. destruct H as [H|H]; apply Ascii.eqb_eq in H; auto.
  - apply Ascii.eqb_eq in H. auto.
Qed.

Lemma eqb_terminal_false a x :
  is_terminal a = false -> is_terminal x = true -> Ascii.eqb a x = false.
Proof.
  intros Ha Hx. destruct (Ascii.eqb_spec a x) as [->|]; [congruence|reflexivity].
Qed.

Lemma rfind_from_absent x s : forall i,
  is_terminal x = true -> has_terminal s = false -> rfind_from x s i = -1.
Proof.
  induction s as [|a s IH]; intros i Hx Hs; simpl.
  - reflexivity.
  - simpl in Hs. apply orb_false_elim in Hs. destruct Hs as [Ha Hs].
    rewrite (IH (i + 1) Hx Hs). simpl.
    now rewrite (eqb_terminal_false a x Ha Hx).
Qed.

Lemma rfind_from_range x s : forall i,
  0 <= i -> -1 <= rfind_from x s i < i + Z.of_nat (String.length s).
Proof.
  induction s as [|a s IH]; intros i Hi.
  - simpl. lia.
  - cbn [rfind_from String.length]. specialize (IH (i + 1) ltac:(lia)).
    destruct (Z.leb_spec 0 (rfind_from x s (i + 1))).
    + lia.
    + destruct (Ascii.eqb a x); lia.
Qed.

Lemma rfind_from_last c pre rest : forall i,
  0 <= i -> is_terminal c = true -> has_terminal rest = false ->
  rfind_from c (pre ++ String c rest)%string i = i + Z.of_nat (String.length pre).
Proof.
  induction pre as [|a pre IH]; intros i Hi Hc Hrest.
  - simpl. rewrite (rfind_from_absent c rest (i + 1) Hc Hrest). simpl.
    rewrite Ascii.eqb_refl. lia.
  - cbn [String.append rfind_from String.length].
    rewrite (IH (i + 1) ltac:(lia) Hc Hrest).
    destruct (Z.leb_spec 0 (i + 1 + Z.of_nat (String.length pre))); lia.
Qed.

Lemma rfind_from_before x c pre rest : forall i,
  0 <= i -> is_terminal x = true -> has_terminal rest = false -> x <> c ->
  rfind_from x (pre ++ String c rest)%string i = rfind_from x pre i.
Proof.
  induction pre as [|a pre IH]; intros i Hi Hx Hrest Hne.
  - simpl. rewrite (rfind_from_absent x rest (i + 1) Hx Hrest). simpl.
    destruct (Ascii.eqb_spec c x) as [->|]; [congruence|reflexivity].
  - cbn [String.append rfind_from].
    now rewrite (IH (i + 1) ltac:(lia) Hx Hrest Hne).
Qed.

(** the last of the three characters stands where [lastpunc] says *)
Lemma lastpunc_is_last_terminal pre c rest :
  is_terminal c = true -> has_terminal rest = false ->
  Z.max (Z.max (rfind (pre ++ String c rest) ".")
               (rfind (pre ++ String c rest) "!"))
        (rfind (pre ++ String c rest) "?")
  = Z.of_nat (String.length pre).
Proof.
  intros Hc Hrest.
  assert (Hle : forall x, is_terminal x = true ->
                  rfind (pre ++ String c rest) x <= Z.of_nat (String.length pre)
                  /\ (x = c -> rfind (pre ++ String c rest) x
                               = Z.of_nat (String.length pre))).
  { intros x Hx. unfold rfind.
    destruct (ascii_dec x c) as [->|Hne].
    - rewrite (rfind_from_last c pre rest 0 ltac:(lia) Hc Hrest). split; lia.
    - rewrite (rfind_from_before x c pre rest 0 ltac:(lia) Hx Hrest Hne).
      pose proof (rfind_from_range x pre 0 ltac:(lia)). split; [lia|tauto]. }
  destruct (Hle "."%char eq_refl) as [H1 E1].
  destruct (Hle "!"%char eq_refl) as [H2 E2].
  destruct (Hle "?"%char eq_refl) as [H3 E3].
  destruct (is_terminal_cases c Hc) as [-> | [-> | ->]];
    [specialize (E1 eq_refl)|specialize (E2 eq_refl)|specialize (E3 eq_refl)];
    lia.
Qed.

Lemma lastpunc_without_terminal txt :
  has_terminal txt = false ->
  Z.max (Z.max (rfind txt ".") (rfind txt "!")) (rfind txt "?") = -1.
Proof.
  intros H. unfold rfind.
  now rewrite !(fun x Hx => rfind_from_absent x txt 0 Hx H) by reflexivity.
Qed.

Lemma length_append (a b : string) :
  String.length (a ++ b) = (String.length a + String.length b)%nat.
Proof. induction a as [|x a IH]; simpl; [reflexivity|now rewrite IH]. Qed.

Lemma substring_prefix (a b : string) :
  String.substring 0 (String.length a) (a ++ b) = a.
Proof.
  induction a as [|x a IH]; simpl.
  - now destruct b.
  - now rewrite IH.
Qed.

Lemma slice_to_prefix (a b : string) :
  slice_to (a ++ b) (Z.of_nat (String.length a)) = a.
Proof.
  unfold slice_to. rewrite length_append.
  destruct (Z.ltb_spec (Z.of_nat (String.length a)) 0); [lia|].
  rewrite Z.min_l by lia. rewrite Nat2Z.id. apply substring_prefix.
Qed.

Lemma append_append (a b c : string) :
  ((a ++ b) ++ c)%string = (a ++ (b ++ c))%string.
Proof. induction a as [|x a IH]; simpl; [reflexivity|now rewrite IH]. Qed.

Lemma append_empty_r (s : string) : (s ++ EmptyString)%string = s.
Proof. induction s as [|x s IH]; simpl; [reflexivity|now rewrite IH]. Qed.

Lemma slice_to_all (s : string) : slice_to s (Z.of_nat (String.length s)) = s.
Proof.
  pose proof (slice_to_prefix s EmptyString) as H.
  now rewrite append_empty_r in H.
Qed.

Lemma index_after_prefix (a : string) (q : ascii) (b : string) :
  index (a ++ String q b) (Z.of_nat (String.length a)) = Ok q.
Proof.
  unfold index. rewrite length_append. cbn [String.length].
  destruct (Z.ltb_spec (Z.of_nat (String.length a)) 0); [lia|].
  destruct (Z.ltb_spec (Z.of_nat (String.length a)) 0); [lia|].
  destruct (Z.leb_spec (Z.of_nat (String.length a + S (String.length b)))
                       (Z.of_nat (String.length a))); [lia|].
  cbn [orb]. rewrite Nat2Z.id.
  replace (String.length a) with (0 + String.length a)%nat at 1 by reflexivity.
  rewrite <- append_correct2. reflexivity.
Qed.

(** A text whose last sentence-terminal character is [c] is cut just after
    [c], or just after the double quote that follows [c]. *)
Lemma trim_with_terminal pre c rest :
  is_terminal c = true -> has_terminal rest = false ->
  trimincompletesentence (pre ++ String c rest)
  = Ok (pre ++ String c match rest with
                        | String q _ =>
                            if Ascii.eqb q quote
                            then String quote EmptyString else EmptyString
                        | EmptyString => EmptyString
                        end)%string.
Proof.
  intros Hc Hrest. unfold trimincompletesentence.
  rewrite (lastpunc_is_last_terminal pre c rest Hc Hrest), length_append.
  assert (Hcut : Z.of_nat (String.length pre) + 1
                 = Z.of_nat (String.length (pre ++ String c EmptyString))).
  { rewrite length_append. simpl. lia. }
  destruct rest as [|q rest]; cbn [String.length].
  - rewrite (proj2 (Z.ltb_ge _ _)) by lia.
    rewrite (proj2 (Z.leb_le _ _)) by lia.
    rewrite Hcut. f_equal. apply slice_to_all.
  - rewrite (proj2 (Z.ltb_lt _ _)) by lia.
    replace (pre ++ String c (String q rest))%string
      with ((pre ++ String c EmptyString) ++ String q rest)%string
      by (now rewrite append_append).
    rewrite Hcut, index_after_prefix.
    destruct (Ascii.eqb_spec q quote) as [->|Hq].
    + rewrite (proj2 (Z.leb_le _ _)) by lia. f_equal.
      replace ((pre ++ String c EmptyString) ++ String quote rest)%string
        with ((pre ++ String c (String quote EmptyString)) ++ rest)%string
        by (now rewrite !append_append).
      replace (Z.of_nat (String.length (pre ++ String c EmptyString)) + 1)
        with (Z.of_nat (String.length (pre ++ String c (String quote EmptyString))))
        by (rewrite !length_append; simpl; lia).
      apply slice_to_prefix.
    + rewrite (proj2 (Z.leb_le _ _)) by lia. f_equal.
      rewrite Hcut. apply slice_to_prefix.
Qed.

(** A text without a sentence-terminal character comes back unchanged,
    unless it begins with a double quote: then only the quote is left. *)
Lemma trim_without_terminal txt :
  has_terminal txt = false ->
  trimincompletesentence txt
  = Ok match txt with
       | String q _ =>
           if Ascii.eqb q quote then String quote EmptyString else txt
       | EmptyString => txt
       end.
Proof.
  intros H. unfold trimincompletesentence.
  rewrite (lastpunc_without_terminal txt H).
  destruct txt as [|q txt].
  - reflexivity.
  - cbn [String.length].
    destruct (Z.ltb_spec (-1) (Z.of_nat (S (String.length txt)) - 1)); [|lia].
    assert (Hi : index (String q txt) (-1 + 1) = Ok q) by reflexivity.
    rewrite Hi.
    destruct (Ascii.eqb_spec q quote) as [->|Hq]; [|reflexivity].
    change (Ok (slice_to (String quote EmptyString ++ txt)
                  (Z.of_nat (String.length (String quote EmptyString))))
            = Ok (String quote EmptyString)).
    now rewrite slice_to_prefix.
Qed.

(** Every text with a sentence-terminal character splits at the last one. *)
Lemma last_terminal_split txt :
  has_terminal txt = true ->
  exists pre c rest,
    txt = (pre ++ String c rest)%string
    /\ is_terminal c = true /\ has_terminal rest = false.
Proof.
  induction txt as [|a txt IH]; simpl; intros H.
  - discriminate.
  - destruct (has_terminal txt) eqn:E.
    + destruct (IH eq_refl) as (pre & c & rest & -> & Hc & Hrest).
      exists (String a pre), c, rest. auto.
    + rewrite orb_false_r in H. exists EmptyString, a, txt. auto.
Qed.

(** [trimincompletesentence] never raises. *)
Lemma trim_returns txt : exists out, trimincompletesentence txt = Ok out.
Proof.
  destruct (has_terminal txt) eqn:E.
  - destruct (last_terminal_split txt E) as (pre & c & rest & -> & Hc & Hrest).
    rewrite (trim_with_terminal pre c rest Hc Hrest). eauto.
  - rewrite (trim_without_terminal txt E). eauto.
Qed.

End TrimFacts.

(** C9, at the input on which the code departs from it: the text of a
    double quote followed by Hello holds none of '.', '!' and '?', and is
    cut down to the double quote. *)
Theorem trim_cuts_text_without_terminal :
  utils.has_terminal (String utils.quote "Hello") = false
  /\ utils.trimincompletesentence (String utils.quote "Hello")
     = Ok (String utils.quote EmptyString)
  /\ String utils.quote EmptyString <> String utils.quote "Hello".
Proof.
  split; [reflexivity|]. split; [reflexivity|]. discriminate.
Qed.

(** * Further properties of the story register *)

Lemma keys_setitem_present k v d :
  In k (OrderedDict.keys d) ->
  OrderedDict.keys (OrderedDict.setitem k v d) = OrderedDict.keys d.
Proof.
  induction d as [|[k0 v0] d IH]; simpl; [contradiction|].
  destruct (Z.eqb_spec k0 k) as [->|Hne]; [reflexivity|].
  intros [H|H]; [congruence|]. simpl. f_equal. now apply IH.
Qed.

Lemma keys_setitem_absent k v d :
  ~ In k (OrderedDict.keys d) ->
  OrderedDict.keys (OrderedDict.setitem k v d) = (OrderedDict.keys d ++ [k])%list.
Proof.
  intros H. rewrite (setitem_absent k v d H).
  unfold OrderedDict.keys. now rewrite map_app.
Qed.

Lemma length_keys (d : OrderedDict.t) :
  List.length (OrderedDict.keys d) = List.length d.
Proof. apply length_map. Qed.

Lemma NoDup_snoc (l : list Z) k : NoDup l -> ~ In k l -> NoDup (l ++ [k]).
Proof.
  intros Hl Hk. apply NoDup_app; [exact Hl|repeat constructor; intros []|].
  intros a Ha [<-|[]]. contradiction.
Qed.

Lemma NoDup_keys_setitem k v d :
  NoDup (OrderedDict.keys d) ->
  NoDup (OrderedDict.keys (OrderedDict.setitem k v d)).
Proof.
  intros H. destruct (in_dec Z.eq_dec k (OrderedDict.keys d)) as [Hin|Hout].
  - now rewrite keys_setitem_present.
  - rewrite keys_setitem_absent by exact Hout. now apply NoDup_snoc.
Qed.

Lemma NoDup_keys_fold sequence : forall d,
  NoDup (OrderedDict.keys d) ->
  NoDup (OrderedDict.keys
           (fold_left (fun d kv => OrderedDict.setitem (fst kv) (snd kv) d)
                      sequence d)).
Proof.
  induction sequence as [|kv sequence IH]; intros d H; simpl.
  - exact H.
  - apply IH. now apply NoDup_keys_setitem.
Qed.

Lemma NoDup_keys_step r c :
  NoDup (OrderedDict.keys (dict r)) ->
  NoDup (OrderedDict.keys (dict (fst (step r c)))).
Proof.
  intros H. destruct c as [v| |k v|x]; simpl.
  - now apply NoDup_keys_setitem.
  - unfold popitem.
    destruct (OrderedDict.popitem (dict r)) as [[[k v] rest]|] eqn:E; simpl.
    + apply popitem_Some in E. rewrite E in H. unfold OrderedDict.keys in H.
      rewrite map_app in H. now apply NoDup_app_remove_r in H.
    + exact H.
  - now apply NoDup_keys_setitem.
  - exact H.
Qed.

Lemma NoDup_keys_run calls : forall r,
  NoDup (OrderedDict.keys (dict r)) ->
  NoDup (OrderedDict.keys (dict (fst (run r calls)))).
Proof.
  induction calls as [|c calls IH]; intros r H.
  - exact H.
  - rewrite run_cons. cbn [fst]. apply IH. now apply NoDup_keys_step.
Qed.

(** X1.  The dictionary of a register never holds an id twice: not after
    construction from any sequence of pairs, and not after any calls. *)
Theorem keys_stay_unique (sequence : list (Z * string)) (calls : list call) :
  NoDup (OrderedDict.keys (dict (fst (run (init sequence) calls)))).
Proof.
  apply NoDup_keys_run. unfold init, OrderedDict.of_sequence. simpl.
  apply NoDup_keys_fold. constructor.
Qed.

Lemma od_getitem_setitem_ne k k' v d :
  k' <> k ->
  OrderedDict.getitem k' (OrderedDict.setitem k v d) = OrderedDict.getitem k' d.
Proof.
  intros Hne. induction d as [|[k0 v0] d IH]; simpl.
  - destruct (Z.eqb_spec k k'); [congruence|reflexivity].
  - destruct (Z.eqb_spec k0 k) as [->|Hk0]; simpl.
    + destruct (Z.eqb_spec k k'); [congruence|reflexivity].
    + destruct (Z.eqb_spec k0 k'); [reflexivity|exact IH].
Qed.

Lemma od_getitem_None k d :
  OrderedDict.getitem k d = None <-> ~ In k (OrderedDict.keys d).
Proof.
  induction d as [|[k0 v0] d IH]; simpl.
  - tauto.
  - destruct (Z.eqb_spec k0 k) as [->|Hne].
    + split; [discriminate|]. intros H. exfalso. apply H. now left.
    + rewrite IH. split; [intros H [H'|H']; [congruence|tauto]|tauto].
Qed.

Lemma od_getitem_app k d d' :
  OrderedDict.getitem k (d ++ d')
  = match OrderedDict.getitem k d with
    | Some v => Some v
    | None => OrderedDict.getitem k d'
    end.
Proof.
  induction d as [|[k0 v0] d IH]; simpl; [reflexivity|].
  destruct (k0 =? k); [reflexivity|exact IH].
Qed.

(** X2.  A text stored under a key is what a read of that key returns, the
    reads of all other keys are as before the store, and the store leaves
    the counter alone. *)
Theorem setitem_then_getitem (r : KoboldStoryRegister) (k : Z) (v : string) :
  getitem (setitem r k v) k = Ok v
  /\ (forall k', k' <> k -> getitem (setitem r k v) k' = getitem r k')
  /\ next_id (setitem r k v) = next_id r.
Proof.
  unfold getitem, setitem. simpl. split; [|split].
  - now rewrite od_getitem_setitem_eq.
  - intros k' Hne. now rewrite od_getitem_setitem_ne.
  - reflexivity.
Qed.

(** X3.  A read raises [KeyError], with the key as its argument, exactly
    when the key is not live; it returns a text exactly when it is. *)
Theorem getitem_missing_key (r : KoboldStoryRegister) (k : Z) :
  (getitem r k = Raise (KeyError (MissingKey k))
   <-> ~ In k (OrderedDict.keys (dict r)))
  /\ ((exists v, getitem r k = Ok v) <-> In k (OrderedDict.keys (dict r))).
Proof.
  unfold getitem. pose proof (od_getitem_None k (dict r)) as H.
  destruct (OrderedDict.getitem k (dict r)) as [v|] eqn:E.
  - assert (Hin : In k (OrderedDict.keys (dict r))).
    { destruct (in_dec Z.eq_dec k (OrderedDict.keys (dict r))) as [Hin|Hout];
        [exact Hin|]. apply H in Hout. discriminate. }
    split; split.
    + discriminate.
    + intros Hout. contradiction.
    + intros _. exact Hin.
    + intros _. now exists v.
  - assert (Hout : ~ In k (OrderedDict.keys (dict r))) by now apply H.
    split; split.
    + intros _. exact Hout.
    + reflexivity.
    + intros [v Hv]. discriminate.
    + intros Hin. contradiction.
Qed.

Lemma get_last_key_snoc r d k v :
  dict r = (d ++ [(k, v)])%list -> get_last_key r = Ok k.
Proof.
  intros H. unfold get_last_key, next_reversed, len.
  rewrite H, last_key_snoc, length_app. simpl.
  destruct (Z.eqb_spec (Z.of_nat (List.length d + 1)) 0); [lia|reflexivity].
Qed.

(** X4.  A store under a live key keeps the order of the keys and the
    number of entries; a store under a key that is not live puts the key
    last and makes the register one entry longer. *)
Theorem setitem_keeps_order (r : KoboldStoryRegister) (k : Z) (v : string) :
  (In k (OrderedDict.keys (dict r)) ->
   OrderedDict.keys (dict (setitem r k v)) = OrderedDict.keys (dict r)
   /\ len (setitem r k v) = len r)
  /\ (~ In k (OrderedDict.keys (dict r)) ->
      OrderedDict.keys (dict (setitem r k v))
      = (OrderedDict.keys (dict r) ++ [k])%list
      /\ len (setitem r k v) = len r + 1
      /\ get_last_key (setitem r k v) = Ok k).
Proof.
  split; intros H.
  - pose proof (keys_setitem_present k v (dict r) H) as Hk. split; [exact Hk|].
    unfold len. rewrite <- !length_keys. simpl. now rewrite Hk.
  - pose proof (keys_setitem_absent k v (dict r) H) as Hk.
    split; [exact Hk|]. split.
    + unfold len. rewrite <- !length_keys. simpl. rewrite Hk, length_app.
      simpl. lia.
    + apply (get_last_key_snoc (setitem r k v) (dict r) k v).
      simpl. now apply setitem_absent.
Qed.

(** X5.  On a register without doubled ids whose last entry is (k, v),
    [pop] returns v and leaves a register in which k is no longer live (a
    read of k raises [KeyError]), which is one entry shorter, and in which
    all other keys read as before and the counter is unchanged. *)
Theorem pop_removes_last_entry
    (r : KoboldStoryRegister) (d : OrderedDict.t) (k : Z) (v : string) :
  NoDup (OrderedDict.keys (dict r)) ->
  dict r = (d ++ [(k, v)])%list ->
  exists r',
    pop r = Ok (v, r')
    /\ getitem r' k = Raise (KeyError (MissingKey k))
    /\ len r' = len r - 1
    /\ (forall k', k' <> k -> getitem r' k' = getitem r k')
    /\ next_id r' = next_id r.
Proof.
  intros Hnd Hd. exists {| dict := d; next_id := next_id r |}.
  assert (Hout : ~ In k (OrderedDict.keys d)).
  { rewrite Hd in Hnd. unfold OrderedDict.keys in Hnd. rewrite map_app in Hnd.
    simpl in Hnd. apply NoDup_remove_2 in Hnd. now rewrite app_nil_r in Hnd. }
  split; [now apply (pop_snoc r d k v)|]. split; [|split; [|split]].
  - unfold getitem. simpl. apply od_getitem_None in Hout. now rewrite Hout.
  - unfold len. simpl. rewrite Hd, length_app. simpl. lia.
  - intros k' Hne. unfold getitem. simpl. rewrite Hd, od_getitem_app.
    destruct (OrderedDict.getitem k' d); [reflexivity|]. simpl.
    destruct (Z.eqb_spec k k'); [congruence|reflexivity].
  - reflexivity.
Qed.

Lemma pop_removes_last_entry_witness :
  exists r',
    pop (init [(0, "a"%string); (1, "b"%string)]) = Ok ("b"%string, r')
    /\ getitem r' 1 = Raise (KeyError (MissingKey 1))
    /\ len r' = 1.
Proof.
  destruct (pop_removes_last_entry (init [(0, "a"%string); (1, "b"%string)])
              [(0, "a"%string)] 1 "b"%string)
    as (r' & Hpop & Hget & Hlen & _).
  - repeat constructor; simpl; intuition discriminate.
  - reflexivity.
  - exists r'. repeat split; assumption.
Defined.

(** X6.  On a register whose live ids all lie below the counter, [append]
    puts its text last under the id [next_id]: that id is then the last
    key and reads as the text, the register is one entry longer, and a
    [pop] right after returns the text and gives back the dictionary as it
    was, with the counter one higher. *)
Theorem append_then_pop (r : KoboldStoryRegister) (v : string) :
  live_ids_below_counter r ->
  get_last_key (append r v) = Ok (next_id r)
  /\ getitem (append r v) (next_id r) = Ok v
  /\ len (append r v) = len r + 1
  /\ pop (append r v) = Ok (v, {| dict := dict r; next_id := next_id r + 1 |}).
Proof.
  intros Hr.
  assert (Hout : ~ In (next_id r) (OrderedDict.keys (dict r))).
  { intros Hin. apply Hr in Hin. lia. }
  assert (Hd : dict (append r v) = (dict r ++ [(next_id r, v)])%list).
  { simpl. now apply setitem_absent. }
  split; [|split; [|split]].
  - now apply (get_last_key_snoc (append r v) (dict r) (next_id r) v).
  - unfold getitem. simpl. now rewrite od_getitem_setitem_eq.
  - unfold len. rewrite Hd, length_app. simpl. lia.
  - now apply (pop_snoc (append r v) (dict r) (next_id r) v).
Qed.

Lemma append_then_pop_witness :
  let r := init [(0, "Once upon a time"%string)] in
  live_ids_below_counter r
  /\ pop (append r " there was a fox.")
     = Ok (" there was a fox."%string,
           {| dict := [(0, "Once upon a time"%string)]; next_id := 2 |}).
Proof.
  intros r.
  assert (Hr : live_ids_below_counter r).
  { intros k [<-|[]]. reflexivity. }
  split; [exact Hr|].
  destruct (append_then_pop r " there was a fox." Hr) as (_ & _ & _ & H).
  exact H.
Defined.

(** X7.  When the id [next_id] is already live, [append] overwrites the
    text of that entry where it stands: the keys and their order are
    unchanged, the register does not grow, and the text that was stored
    under the id is replaced. *)
Theorem append_overwrites_live_id (r : KoboldStoryRegister) (v : string) :
  In (next_id r) (OrderedDict.keys (dict r)) ->
  OrderedDict.keys (dict (append r v)) = OrderedDict.keys (dict r)
  /\ len (append r v) = len r
  /\ getitem (append r v) (next_id r) = Ok v
  /\ next_id (append r v) = next_id r + 1.
Proof.
  intros Hin.
  pose proof (keys_setitem_present (next_id r) v (dict r) Hin) as Hk.
  split; [exact Hk|]. split; [|split].
  - unfold len. rewrite <- !length_keys. simpl. now rewrite Hk.
  - unfold getitem. simpl. now rewrite od_getitem_setitem_eq.
  - reflexivity.
Qed.

Lemma append_overwrites_live_id_witness :
  let r := init [(1, "kept?"%string)] in
  In (next_id r) (OrderedDict.keys (dict r))
  /\ len (append r "new") = len r
  /\ getitem (append r "new") 1 = Ok "new"%string.
Proof.
  intros r.
  assert (Hin : In (next_id r) (OrderedDict.keys (dict r))) by (now left).
  split; [exact Hin|].
  destruct (append_overwrites_live_id r "new" Hin) as (_ & Hlen & Hget & _).
  split; [exact Hlen|exact Hget].
Defined.

Lemma length_setitem_le k v d :
  (List.length (OrderedDict.setitem k v d) <= List.length d + 1)%nat.
Proof.
  induction d as [|[k0 v0] d IH]; simpl; [lia|].
  destruct (k0 =? k); simpl; lia.
Qed.

Lemma length_fold_setitem_le sequence : forall d,
  (List.length (fold_left (fun d kv => OrderedDict.setitem (fst kv) (snd kv) d)
                          sequence d)
   <= List.length d + List.length sequence)%nat.
Proof.
  induction sequence as [|kv sequence IH]; intros d; simpl; [lia|].
  specialize (IH (OrderedDict.setitem (fst kv) (snd kv) d)).
  pose proof (length_setitem_le (fst kv) (snd kv) d). lia.
Qed.

Lemma fold_setitem_distinct sequence : forall d,
  NoDup (OrderedDict.keys d ++ map fst sequence) ->
  fold_left (fun d kv => OrderedDict.setitem (fst kv) (snd kv) d) sequence d
  = (d ++ sequence)%list.
Proof.
  induction sequence as [|[k v] sequence IH]; intros d H; simpl.
  - now rewrite app_nil_r.
  - simpl in H.
    assert (Hout : ~ In k (OrderedDict.keys d)).
    { apply NoDup_remove_2 in H. intros Hin. apply H, in_or_app. now left. }
    rewrite (setitem_absent k v d Hout), IH.
    + now rewrite <- app_assoc.
    + unfold OrderedDict.keys in *. rewrite map_app, <- app_assoc. exact H.
Qed.

(** X8.  A register constructed from a sequence that can be traversed
    twice (a list or a tuple of pairs, the argument [init] takes) never has
    more entries than its counter says; and when the ids of the pairs are
    all different it holds exactly the pairs, in their order, and the
    counter is the number of its entries.  (A one-shot iterable is used up
    by the dictionary, and the count that follows finds nothing: that case
    is outside [init].) *)
Theorem init_of_distinct_ids (sequence : list (Z * string)) :
  len (init sequence) <= next_id (init sequence)
  /\ (NoDup (map fst sequence) ->
      dict (init sequence) = sequence
      /\ len (init sequence) = next_id (init sequence)).
Proof.
  rewrite next_id_init. split.
  - unfold len, init, OrderedDict.of_sequence. simpl.
    pose proof (length_fold_setitem_le sequence []). simpl in H. lia.
  - intros Hnd.
    assert (Hd : dict (init sequence) = sequence).
    { unfold init, OrderedDict.of_sequence. simpl.
      now rewrite fold_setitem_distinct. }
    split; [exact Hd|]. unfold len. now rewrite Hd.
Qed.

Lemma init_of_distinct_ids_witness :
  dict (init [(3, "c"%string); (0, "a"%string)])
  = [(3, "c"%string); (0, "a"%string)]
  /\ len (init [(0, "a"%string); (0, "b"%string)])
     <= next_id (init [(0, "a"%string); (0, "b"%string)]).
Proof.
  destruct (init_of_distinct_ids [(3, "c"%string); (0, "a"%string)])
    as [_ H].
  destruct (init_of_distinct_ids [(0, "a"%string); (0, "b"%string)])
    as [Hle _].
  split; [|exact Hle].
  apply H. repeat constructor; simpl; intuition discriminate.
Defined.

Lemma of_sequence_snoc sequence k v :
  OrderedDict.of_sequence (sequence ++ [(k, v)])
  = OrderedDict.setitem k v (OrderedDict.of_sequence sequence).
Proof. unfold OrderedDict.of_sequence. now rewrite fold_left_app. Qed.

Lemma keys_fold_keeps sequence k : forall d,
  In k (OrderedDict.keys d) ->
  In k (OrderedDict.keys
          (fold_left (fun d kv => OrderedDict.setitem (fst kv) (snd kv) d)
                     sequence d)).
Proof.
  induction sequence as [|[k0 v0] sequence IH]; intros d H; simpl.
  - exact H.
  - apply IH. apply keys_setitem. now right.
Qed.

Lemma keys_fold_holds_sequence sequence k : forall d,
  In k (map fst sequence) ->
  In k (OrderedDict.keys
          (fold_left (fun d kv => OrderedDict.setitem (fst kv) (snd kv) d)
                     sequence d)).
Proof.
  induction sequence as [|[k0 v0] sequence IH]; intros d H; simpl in *.
  - contradiction.
  - destruct H as [->|H].
    + apply keys_fold_keeps. apply keys_setitem. now left.
    + now apply IH.
Qed.

(** X9.  When the constructor is given an id more than once, the text
    given last is the one that is read, every other id reads as without
    that pair, and the id keeps the place of its first pair in the order
    of the keys. *)
Theorem init_last_pair_wins
    (sequence : list (Z * string)) (k : Z) (v : string) :
  getitem (init (sequence ++ [(k, v)])) k = Ok v
  /\ (forall k', k' <> k ->
        getitem (init (sequence ++ [(k, v)])) k' = getitem (init sequence) k')
  /\ (In k (map fst sequence) ->
      OrderedDict.keys (dict (init (sequence ++ [(k, v)])))
      = OrderedDict.keys (dict (init sequence))).
Proof.
  unfold getitem, init. simpl. rewrite of_sequence_snoc. split; [|split].
  - now rewrite od_getitem_setitem_eq.
  - intros k' Hne. now rewrite od_getitem_setitem_ne.
  - intros Hin. apply keys_setitem_present.
    now apply keys_fold_holds_sequence.
Qed.

(** X10.  On a register that is not empty, [append] does not change the
    first key. *)
Theorem first_key_stable_under_append (r : KoboldStoryRegister) (v : string) :
  dict r <> [] ->
  get_first_key (append r v) = get_first_key r.
Proof.
  intros H. unfold get_first_key, next_iter, len. simpl.
  destruct (dict r) as [|[k0 v0] d]; [contradiction|]. simpl.
  destruct (k0 =? next_id r); reflexivity.
Qed.

Lemma first_key_stable_under_append_witness :
  get_first_key (append (init [(4, "d"%string); (1, "b"%string)]) "x")
  = Ok 4.
Proof.
  rewrite (first_key_stable_under_append
             (init [(4, "d"%string); (1, "b"%string)]) "x").
  - reflexivity.
  - discriminate.
Defined.

(** * Further properties of [utils.py] *)

Section TextFacts.

Import utils.

(** X11.  A text whose last sentence-terminal character is [c] is cut
    just after [c], or just after a double quote that follows [c] at
    once; what comes after is dropped. *)
Theorem trim_cuts_after_last_terminal (pre : string) (c : ascii) (rest : string) :
  is_terminal c = true -> has_terminal rest = false ->
  trimincompletesentence (pre ++ String c rest)
  = Ok (pre ++ String c match rest with
                        | String q _ =>
                            if Ascii.eqb q quote
                            then String quote EmptyString else EmptyString
                        | EmptyString => EmptyString
                        end)%string.
Proof. apply trim_with_terminal. Qed.

Lemma trim_cuts_after_last_terminal_witness :
  trimincompletesentence ("He left. She said " ++ String quote "No!"
                          ++ String quote " and then")
  = Ok ("He left. She said " ++ String quote "No!" ++ String quote "")%string.
Proof.
  apply (trim_cuts_after_last_terminal
           ("He left. She said " ++ String quote "No") "!"
           (String quote " and then")); reflexivity.
Defined.

(** X12.  A text without '.', '!' and '?' comes back unchanged unless it
    begins with a double quote; a text that begins with a double quote and
    has none of them comes back as the double quote alone. *)
Theorem trim_without_terminal_cases (txt : string) :
  has_terminal txt = false ->
  trimincompletesentence txt
  = Ok match txt with
       | String q _ =>
           if Ascii.eqb q quote then String quote EmptyString else txt
       | EmptyString => txt
       end.
Proof. apply trim_without_terminal. Qed.

Lemma trim_without_terminal_cases_witness :
  trimincompletesentence "and then she" = Ok "and then she"%string
  /\ trimincompletesentence (String quote "and then she")
     = Ok (String quote EmptyString).
Proof.
  split.
  - apply (trim_without_terminal_cases "and then she"). reflexivity.
  - apply (trim_without_terminal_cases (String quote "and then she")).
    reflexivity.
Defined.

Lemma prefix_refl (s : string) : String.prefix s s = true.
Proof.
  induction s as [|a s IH]; simpl; [reflexivity|].
  destruct (ascii_dec a a); [exact IH|contradiction].
Qed.

Lemma prefix_append (a b : string) : String.prefix a (a ++ b) = true.
Proof.
  induction a as [|x a IH]; simpl.
  - now destruct b.
  - destruct (ascii_dec x x); [exact IH|contradiction].
Qed.

Lemma prefix_append_both (p a b : string) :
  String.prefix a b = true -> String.prefix (p ++ a) (p ++ b) = true.
Proof.
  intros H. induction p as [|x p IH]; simpl; [exact H|].
  destruct (ascii_dec x x); [exact IH|contradiction].
Qed.

(** X13.  [trimincompletesentence] never raises, what it returns is a
    prefix of its argument, and trimming what it returns changes nothing
    more. *)
Theorem trim_is_idempotent_prefix (txt : string) :
  exists out,
    trimincompletesentence txt = Ok out
    /\ String.prefix out txt = true
    /\ trimincompletesentence out = Ok out.
Proof.
  destruct (has_terminal txt) eqn:E.
  - destruct (last_terminal_split txt E) as (pre & c & rest & -> & Hc & Hrest).
    rewrite (trim_with_terminal pre c rest Hc Hrest).
    eexists. split; [reflexivity|]. split.
    + apply prefix_append_both. simpl.
      destruct (ascii_dec c c); [|contradiction].
      destruct rest as [|q rest]; [reflexivity|].
      destruct (Ascii.eqb_spec q quote) as [->|Hq]; [|reflexivity].
      simpl. destruct (ascii_dec quote quote); [|contradiction].
      now destruct rest.
    + destruct rest as [|q rest].
      * now rewrite (trim_with_terminal pre c EmptyString Hc eq_refl).
      * destruct (Ascii.eqb_spec q quote) as [->|Hq].
        -- now rewrite (trim_with_terminal pre c (String quote EmptyString)
                          Hc eq_refl).
        -- now rewrite (trim_with_terminal pre c EmptyString Hc eq_refl).
  - rewrite (trim_without_terminal txt E).
    destruct txt as [|q txt].
    + exists EmptyString. repeat split.
    + destruct (Ascii.eqb_spec q quote) as [->|Hq].
      * exists (String quote EmptyString). split; [reflexivity|]. split.
        -- simpl. destruct (ascii_dec quote quote); [|contradiction].
           now destruct txt.
        -- reflexivity.
      * exists (String q txt). split; [reflexivity|]. split.
        -- apply prefix_refl.
        -- rewrite (trim_without_terminal (String q txt) E).
           destruct (Ascii.eqb_spec q quote); [contradiction|reflexivity].
Qed.

(** *** [removespecialchars] *)

Lemma in_class_re_sub cls txt c :
  in_class (re_sub_class cls txt) c = in_class txt c && negb (in_class cls c).
Proof.
  induction txt as [|a txt IH]; simpl; [reflexivity|].
  destruct (in_class cls a) eqn:Ea; simpl.
  - rewrite IH. destruct (Ascii.eqb_spec a c) as [->|Hne]; simpl.
    + rewrite Ea. simpl. now rewrite andb_false_r.
    + reflexivity.
  - rewrite IH. destruct (Ascii.eqb_spec a c) as [->|Hne]; simpl.
    + now rewrite Ea.
    + reflexivity.
Qed.

Lemma re_sub_class_append cls (a b : string) :
  re_sub_class cls (a ++ b) = (re_sub_class cls a ++ re_sub_class cls b)%string.
Proof.
  induction a as [|x a IH]; simpl; [reflexivity|].
  destruct (in_class cls x); simpl; now rewrite IH.
Qed.

Lemma re_sub_class_twice cls txt :
  re_sub_class cls (re_sub_class cls txt) = re_sub_class cls txt.
Proof.
  induction txt as [|a txt IH]; simpl; [reflexivity|].
  destruct (in_class cls a) eqn:Ea; simpl; [exact IH|].
  now rewrite Ea, IH.
Qed.

(** X14.  After [removespecialchars] none of the characters
    # / @ % { } + = ~ | ^ is left, and in the default mode (no settings
    object, or action mode 0) no '<' and no '>' either, while in the other
    modes '<' and '>' stay; every other character stays; the function works
    piece by piece on a concatenation, and applying it twice is applying it
    once. *)
Theorem removespecialchars_removes (txt : string) (vars : option kobold_vars) :
  (forall c, in_class "#/@%{}+=~|^" c = true ->
             in_class (removespecialchars txt vars) c = false)
  /\ (forall c, in_class "<>" c = true ->
        in_class (removespecialchars txt vars) c
        = match vars with
          | None => false
          | Some v => if vars_actionmode v =? 0 then false else in_class txt c
          end)
  /\ (forall c, in_class "#/@%<>{}+=~|^" c = false ->
        in_class (removespecialchars txt vars) c = in_class txt c)
  /\ (forall a b, removespecialchars (a ++ b) vars
                  = (removespecialchars a vars ++ removespecialchars b vars)%string)
  /\ removespecialchars (removespecialchars txt vars) vars
     = removespecialchars txt vars.
Proof.
  assert (Hsplit : forall c,
            in_class "#/@%<>{}+=~|^" c
            = in_class "#/@%{}+=~|^" c || in_class "<>" c).
  { intros c. cbn [in_class].
    destruct (Ascii.eqb "#" c), (Ascii.eqb "/" c), (Ascii.eqb "@" c),
      (Ascii.eqb "%" c), (Ascii.eqb "<" c), (Ascii.eqb ">" c),
      (Ascii.eqb "{" c), (Ascii.eqb "}" c), (Ascii.eqb "+" c),
      (Ascii.eqb "=" c), (Ascii.eqb "~" c), (Ascii.eqb "|" c),
      (Ascii.eqb "^" c); reflexivity. }
  assert (Hdisj : forall c, in_class "<>" c = true ->
                            in_class "#/@%{}+=~|^" c = false).
  { intros c H. cbn [in_class] in H. apply orb_prop in H.
    destruct H as [H|H]; [|apply orb_prop in H; destruct H as [H|H];
                             [|discriminate]];
      apply Ascii.eqb_eq in H; subst c; reflexivity. }
  unfold removespecialchars.
  destruct (match vars with
            | Some v => vars_actionmode v =? 0
            | None => true
            end) eqn:Emode.
  - refine (conj _ (conj _ (conj _ (conj _ _)))).
    + intros c Hc. rewrite in_class_re_sub, Hsplit, Hc. simpl.
      apply andb_false_r.
    + intros c Hc. rewrite in_class_re_sub, Hsplit, Hc, orb_true_r. simpl.
      rewrite andb_false_r. destruct vars as [v|]; [now rewrite Emode|reflexivity].
    + intros c Hc. rewrite in_class_re_sub, Hc. simpl. apply andb_true_r.
    + intros a b. apply re_sub_class_append.
    + apply re_sub_class_twice.
  - destruct vars as [v|]; [|discriminate]. rewrite Emode.
    refine (conj _ (conj _ (conj _ (conj _ _)))).
    + intros c Hc. rewrite in_class_re_sub, Hc. simpl. apply andb_false_r.
    + intros c Hc. rewrite in_class_re_sub, (Hdisj c Hc). simpl.
      apply andb_true_r.
    + intros c Hc. rewrite Hsplit in Hc. apply orb_false_elim in Hc.
      rewrite in_class_re_sub, (proj1 Hc). simpl. apply andb_true_r.
    + intros a b. apply re_sub_class_append.
    + apply re_sub_class_twice.
Qed.

End TextFacts.

(** * Newlines: [replaceblanklines], [encodenewlines], [decodenewlines] *)

Section NewlineFacts.

Import utils.

Lemma replace_from_absent old new s :
  occurs old s = false -> replace_from 0 old new s = s.
Proof.
  induction s as [|a s IH]; intros H; [reflexivity|].
  cbn [occurs] in H. apply orb_false_elim in H. destruct H as [Hp Ho].
  cbn [replace_from]. rewrite Hp. now rewrite IH.
Qed.

Lemma replace_absent txt old new :
  occurs old txt = false -> replace txt old new = txt.
Proof.
  intros H. destruct old as [|a old].
  - destruct txt; discriminate.
  - now apply replace_from_absent.
Qed.

Lemma replace_from_skip p old new rest :
  replace_from (String.length p) old new (p ++ rest)
  = replace_from 0 old new rest.
Proof.
  induction p as [|x p IH]; [reflexivity|exact IH].
Qed.

(** at an occurrence of [old], the scan puts [new] and goes on behind it *)
Lemma replace_from_at_match x p new rest :
  replace_from 0 (String x p) new (String x p ++ rest)
  = (new ++ replace_from 0 (String x p) new rest)%string.
Proof.
  cbn [String.append replace_from].
  change (String x (p ++ rest)) with (String x p ++ rest)%string.
  rewrite prefix_append. cbn [String.length].
  replace (S (String.length p) - 1)%nat with (String.length p) by lia.
  now rewrite replace_from_skip.
Qed.

Lemma replace_newlines_pair n :
  replace_from 0 (newline ++ newline) newline (newlines n)
  = newlines (Nat.div2 (S n))
  /\ replace_from 0 (newline ++ newline) newline (newlines (S n))
     = newlines (Nat.div2 (S (S n))).
Proof.
  induction n as [|n [IH1 IH2]].
  - split; reflexivity.
  - split; [exact IH2|].
    change (newlines (S (S n))) with ((newline ++ newline) ++ newlines n)%string.
    change (newline ++ newline)%string with (String "010" newline).
    rewrite replace_from_at_match.
    change (String "010" newline) with (newline ++ newline)%string.
    rewrite IH1. reflexivity.
Qed.

(** where the scan of [replaceblanklines] finds a match *)
Lemma prefix_blank_line c s :
  String.prefix (newline ++ newline) (String c s)
  = Ascii.eqb c "010" && String.prefix newline s.
Proof.
  cbn [newline String.append String.prefix].
  destruct (ascii_dec "010" c) as [<-|Hne].
  - rewrite Ascii.eqb_refl. reflexivity.
  - destruct (Ascii.eqb_spec c "010"); [congruence|reflexivity].
Qed.

Lemma prefix_newline c s :
  String.prefix newline (String c s) = Ascii.eqb c "010".
Proof.
  cbn [newline String.prefix].
  destruct (ascii_dec "010" c) as [<-|Hne].
  - rewrite Ascii.eqb_refl. now destruct s.
  - destruct (Ascii.eqb_spec c "010"); [congruence|reflexivity].
Qed.

Lemma replace_from_no_match old new c s :
  String.prefix old (String c s) = false ->
  replace_from 0 old new (String c s) = String c (replace_from 0 old new s).
Proof. intros H. cbn [replace_from]. now rewrite H. Qed.

(** behind a run of newlines that a character other than a newline ends *)
Lemma replace_newlines_then n b :
  String.prefix newline b = false ->
  replace_from 0 (newline ++ newline) newline (newlines n ++ b)
  = (newlines (Nat.div2 (S n))
     ++ replace_from 0 (newline ++ newline) newline b)%string
  /\ replace_from 0 (newline ++ newline) newline (newlines (S n) ++ b)
     = (newlines (Nat.div2 (S (S n)))
        ++ replace_from 0 (newline ++ newline) newline b)%string.
Proof.
  intros Hb. induction n as [|n [IH1 IH2]].
  - split; [reflexivity|].
    cbn [newlines String.append Nat.div2].
    rewrite replace_from_no_match; [reflexivity|].
    rewrite prefix_blank_line, Hb. apply andb_false_r.
  - split; [exact IH2|].
    change (newlines (S (S n)) ++ b)%string
      with ((newline ++ newline) ++ (newlines n ++ b))%string.
    change (newline ++ newline)%string with (String "010" newline).
    rewrite replace_from_at_match.
    change (String "010" newline) with (newline ++ newline)%string.
    rewrite IH1. reflexivity.
Qed.

(** the scan starts afresh behind a text that does not end in a newline *)
Lemma replace_blank_lines_append n : forall a s,
  (String.length a <= n)%nat ->
  lastchar_of a <> Some "010"%char ->
  replace_from 0 (newline ++ newline) newline (a ++ s)
  = (replace_from 0 (newline ++ newline) newline a
     ++ replace_from 0 (newline ++ newline) newline s)%string.
Proof.
  induction n as [|n IH]; intros a s Hlen Hlast.
  - destruct a; [reflexivity|simpl in Hlen; lia].
  - destruct a as [|c a]; [reflexivity|].
    destruct (Ascii.eqb_spec c "010") as [->|Hc].
    + destruct a as [|d a]; [now elim Hlast|].
      destruct (Ascii.eqb_spec d "010") as [->|Hd].
      * change (String "010" (String "010" a) ++ s)%string
          with (String "010" newline ++ (a ++ s))%string.
        change (String "010" (String "010" a))
          with (String "010" newline ++ a)%string.
        change (newline ++ newline)%string with (String "010" newline).
        rewrite !replace_from_at_match.
        change (String "010" newline) with (newline ++ newline)%string.
        rewrite (IH a s).
        -- now rewrite append_append.
        -- simpl in Hlen. lia.
        -- intros E. apply Hlast. destruct a as [|e a]; [discriminate|exact E].
      * change (String "010" (String d a) ++ s)%string
          with (String "010" (String d a ++ s)).
        rewrite (replace_from_no_match _ _ "010" (String d a ++ s)),
          (replace_from_no_match _ _ "010" (String d a)).
        -- rewrite (IH (String d a) s); [reflexivity|simpl in *; lia|].
           intros E. apply Hlast. exact E.
        -- rewrite prefix_blank_line. cbn [String.append].
           rewrite prefix_newline.
           destruct (Ascii.eqb_spec d "010"); [contradiction|reflexivity].
        -- rewrite prefix_blank_line. cbn [String.append].
           rewrite prefix_newline.
           destruct (Ascii.eqb_spec d "010"); [contradiction|reflexivity].
    + change (String c a ++ s)%string with (String c (a ++ s)).
      rewrite (replace_from_no_match _ _ c (a ++ s)),
        (replace_from_no_match _ _ c a).
      * rewrite (IH a s); [reflexivity|simpl in Hlen; lia|].
        intros E. apply Hlast. destruct a as [|e a]; [discriminate|exact E].
      * rewrite prefix_blank_line.
        destruct (Ascii.eqb_spec c "010"); [contradiction|reflexivity].
      * rewrite prefix_blank_line.
        destruct (Ascii.eqb_spec c "010"); [contradiction|reflexivity].
Qed.

(** X15.  [replaceblanklines] leaves a text without two newlines in a row
    as it is, and makes of a run of n newlines a run of n/2 rounded up,
    wherever the run stands in a text: behind a part that does not end in a
    newline the rest is treated as a text of its own, and a run of n
    newlines that a character other than a newline ends (or the end of the
    text) becomes a run of n/2 rounded up, followed by what the function
    makes of the rest.  One pass halves the runs, so blank lines are left
    where three or more newlines stood. *)
Theorem replaceblanklines_halves_runs (txt : string) (n : nat) :
  (occurs (newline ++ newline) txt = false -> replaceblanklines txt = txt)
  /\ replaceblanklines (newlines n) = newlines (Nat.div2 (S n))
  /\ (forall a s,
        lastchar_of a <> Some "010"%char ->
        replaceblanklines (a ++ s)
        = (replaceblanklines a ++ replaceblanklines s)%string)
  /\ (forall b,
        String.prefix newline b = false ->
        replaceblanklines (newlines n ++ b)
        = (newlines (Nat.div2 (S n)) ++ replaceblanklines b)%string)
  /\ (forall a b,
        lastchar_of a <> Some "010"%char ->
        String.prefix newline b = false ->
        replaceblanklines (a ++ newlines n ++ b)
        = (replaceblanklines a ++ newlines (Nat.div2 (S n))
           ++ replaceblanklines b)%string).
Proof.
  assert (Happ : forall a s,
            lastchar_of a <> Some "010"%char ->
            replaceblanklines (a ++ s)
            = (replaceblanklines a ++ replaceblanklines s)%string).
  { intros a s Ha. apply (replace_blank_lines_append (String.length a));
      [apply Nat.le_refl|exact Ha]. }
  assert (Hrun : forall b,
            String.prefix newline b = false ->
            replaceblanklines (newlines n ++ b)
            = (newlines (Nat.div2 (S n)) ++ replaceblanklines b)%string).
  { intros b Hb. apply (replace_newlines_then n b Hb). }
  split; [|split; [|split; [exact Happ|split; [exact Hrun|]]]].
  - intros H. unfold replaceblanklines. now apply replace_absent.
  - apply (replace_newlines_pair n).
  - intros a b Ha Hb. now rewrite (Happ a _ Ha), (Hrun b Hb).
Qed.

Lemma replaceblanklines_halves_runs_witness :
  replaceblanklines "one line" = "one line"%string
  /\ replaceblanklines (newlines 4) = newlines 2
  /\ replaceblanklines ("a" ++ newlines 3 ++ "b")
     = ("a" ++ newlines 2 ++ "b")%string.
Proof.
  destruct (replaceblanklines_halves_runs "one line" 4) as (H1 & H2 & _).
  destruct (replaceblanklines_halves_runs "" 3) as (_ & _ & _ & _ & H3).
  split; [apply H1; reflexivity|]. split; [exact H2|].
  apply (H3 "a"%string "b"%string); [discriminate|reflexivity].
Defined.

(** the scan of [encodenewlines], one character at a time *)
Lemma encode_step a s :
  replace_from 0 newline "</s>" (String a s)
  = if Ascii.eqb a "010"
    then ("</s>" ++ replace_from 0 newline "</s>" s)%string
    else String a (replace_from 0 newline "</s>" s).
Proof.
  cbn [replace_from newline String.prefix String.length Nat.sub].
  destruct (ascii_dec "010" a) as [<-|Hne].
  - rewrite Ascii.eqb_refl. now destruct s.
  - destruct (Ascii.eqb_spec a "010"); [congruence|reflexivity].
Qed.

Lemma prefix_encoded p : forall s,
  in_class p "010" = false -> in_class p "<" = false ->
  String.prefix p (replace_from 0 newline "</s>" s) = String.prefix p s.
Proof.
  induction p as [|x p IH]; intros s Hn Hl.
  - destruct (replace_from 0 newline "</s>" s); now destruct s.
  - cbn [in_class] in Hn, Hl.
    apply orb_false_elim in Hn. destruct Hn as [Hxn Hn].
    apply orb_false_elim in Hl. destruct Hl as [Hxl Hl].
    destruct s as [|a s]; [reflexivity|].
    rewrite encode_step. destruct (Ascii.eqb_spec a "010") as [->|Ha].
    + cbn [String.append String.prefix].
      destruct (ascii_dec x "<") as [->|_];
        [now rewrite Ascii.eqb_refl in Hxl|].
      destruct (ascii_dec x "010") as [->|_];
        [now rewrite Ascii.eqb_refl in Hxn|reflexivity].
    + cbn [String.prefix]. destruct (ascii_dec x a); [now apply IH|reflexivity].
Qed.

Lemma decode_encode s :
  occurs "</s>" s = false ->
  replace_from 0 "</s>" newline (replace_from 0 newline "</s>" s) = s.
Proof.
  induction s as [|a s IH]; intros H; [reflexivity|].
  cbn [occurs] in H. apply orb_false_elim in H. destruct H as [Hp Ho].
  rewrite encode_step. destruct (Ascii.eqb_spec a "010") as [->|Ha].
  - rewrite (replace_from_at_match "<" "/s>"). now rewrite IH.
  - cbn [replace_from].
    assert (Hq : String.prefix "</s>"
                   (String a (replace_from 0 newline "</s>" s)) = false).
    { cbn [String.prefix] in *. destruct (ascii_dec "<" a); [|reflexivity].
      rewrite (prefix_encoded "/s>" s eq_refl eq_refl). exact Hp. }
    rewrite Hq. now rewrite IH.
Qed.

(** X16.  Decoding what [encodenewlines] made of a text gives the text
    back, in every newline mode, when the text does not contain "</s>". *)
Theorem decode_encode_newlines (vars : kobold_vars) (txt : string) :
  occurs "</s>" txt = false ->
  decodenewlines vars (encodenewlines vars txt) = txt.
Proof.
  intros H. unfold decodenewlines, encodenewlines.
  destruct (String.eqb (vars_newlinemode vars) "s"); [|reflexivity].
  now apply decode_encode.
Qed.

Lemma decode_encode_newlines_witness :
  let vars := {| vars_actions := init []; vars_prompt := "";
                 vars_actionmode := 0; vars_newlinemode := "s";
                 vars_regex_sl_sub := fun s => s |} in
  encodenewlines vars ("a" ++ newline ++ "<b>" ++ newline)
  = "a</s><b></s>"%string
  /\ decodenewlines vars
       (encodenewlines vars ("a" ++ newline ++ "<b>" ++ newline))
     = ("a" ++ newline ++ "<b>" ++ newline)%string.
Proof.
  intros vars. split; [reflexivity|].
  apply (decode_encode_newlines vars). reflexivity.
Defined.

Lemma prefix_split p : forall s,
  String.prefix p s = true -> exists rest, s = (p ++ rest)%string.
Proof.
  induction p as [|x p IH]; intros s H.
  - now exists s.
  - destruct s as [|a s]; [discriminate|]. cbn [String.prefix] in H.
    destruct (ascii_dec x a) as [<-|]; [|discriminate].
    destruct (IH s H) as [rest ->]. now exists rest.
Qed.

Lemma encode_decode_bounded n : forall t,
  (String.length t <= n)%nat ->
  occurs newline t = false ->
  replace_from 0 newline "</s>" (replace_from 0 "</s>" newline t) = t.
Proof.
  induction n as [|n IH]; intros t Hlen Hnl.
  - destruct t; [reflexivity|simpl in Hlen; lia].
  - destruct t as [|a t]; [reflexivity|].
    destruct (String.prefix "</s>" (String a t)) eqn:Hp.
    + destruct (prefix_split _ _ Hp) as [rest E].
      rewrite E in *. clear E Hp.
      rewrite (replace_from_at_match "<" "/s>").
      change (newline ++ replace_from 0 "</s>" newline rest)%string
        with (String "010" (replace_from 0 "</s>" newline rest)).
      rewrite encode_step, Ascii.eqb_refl. rewrite IH.
      * reflexivity.
      * simpl in Hlen. lia.
      * cbn [String.append occurs newline String.prefix] in Hnl.
        repeat match type of Hnl with
               | context [ascii_dec ?x ?y] =>
                   destruct (ascii_dec x y); [discriminate|]
               end.
        exact Hnl.
    + cbn [replace_from]. rewrite Hp. rewrite encode_step.
      cbn [occurs] in Hnl. apply orb_false_elim in Hnl.
      destruct Hnl as [Ha Ho].
      assert (Hne : Ascii.eqb a "010" = false).
      { destruct (Ascii.eqb_spec a "010") as [->|]; [|reflexivity].
        cbn [newline String.prefix] in Ha.
        destruct (ascii_dec "010" "010"); [|contradiction].
        now destruct t. }
      rewrite Hne. rewrite IH; [reflexivity| simpl in Hlen; lia | exact Ho].
Qed.

(** X17.  Encoding what [decodenewlines] made of a text gives the text
    back, in every newline mode, when the text holds no newline. *)
Theorem encode_decode_newlines (vars : kobold_vars) (txt : string) :
  occurs newline txt = false ->
  encodenewlines vars (decodenewlines vars txt) = txt.
Proof.
  intros H. unfold decodenewlines, encodenewlines.
  destruct (String.eqb (vars_newlinemode vars) "s"); [|reflexivity].
  now apply (encode_decode_bounded (String.length txt)).
Qed.

Lemma encode_decode_newlines_witness :
  let vars := {| vars_actions := init []; vars_prompt := "";
                 vars_actionmode := 0; vars_newlinemode := "s";
                 vars_regex_sl_sub := fun s => s |} in
  decodenewlines vars "a</s></s>b</s" = ("a" ++ newline ++ newline ++ "b</s")%string
  /\ encodenewlines vars (decodenewlines vars "a</s></s>b</s")
     = "a</s></s>b</s"%string.
Proof.
  intros vars. split; [reflexivity|].
  apply (encode_decode_newlines vars). reflexivity.
Defined.

End NewlineFacts.

(** * The last action: [addsentencespacing], [singlelineprocessing] *)

Section LastActionFacts.

Import utils.

Lemma last_action_snoc vars d k a :
  NoDup (OrderedDict.keys (dict (vars_actions vars))) ->
  dict (vars_actions vars) = (d ++ [(k, a)])%list ->
  last_action vars = Ok a /\ (0 <? len (vars_actions vars)) = true.
Proof.
  intros Hnd Hd. unfold last_action.
  rewrite (get_last_key_snoc (vars_actions vars) d k a Hd).
  assert (Hout : ~ In k (OrderedDict.keys d)).
  { rewrite Hd in Hnd. unfold OrderedDict.keys in Hnd. rewrite map_app in Hnd.
    simpl in Hnd. apply NoDup_remove_2 in Hnd. now rewrite app_nil_r in Hnd. }
  split.
  - unfold getitem. rewrite Hd, od_getitem_app.
    apply od_getitem_None in Hout. rewrite Hout. simpl.
    now rewrite Z.eqb_refl.
  - unfold len. rewrite Hd, length_app. simpl. apply Z.ltb_lt. lia.
Qed.

Lemma context_lastchar_snoc vars d k a :
  NoDup (OrderedDict.keys (dict (vars_actions vars))) ->
  dict (vars_actions vars) = (d ++ [(k, a)])%list ->
  context_lastchar vars
  = Ok match a with
       | EmptyString => None
       | String _ _ => Some (lastchar_of a)
       end.
Proof.
  intros Hnd Hd. destruct (last_action_snoc vars d k a Hnd Hd) as [Ha Hlen].
  unfold context_lastchar. rewrite Hlen, Ha. now destruct a.
Qed.

Lemma context_lastchar_empty vars :
  dict (vars_actions vars) = [] ->
  context_lastchar vars = Ok (Some (lastchar_of (vars_prompt vars))).
Proof.
  intros Hd. unfold context_lastchar, len. now rewrite Hd.
Qed.

(** X18.  On a register without doubled ids [addsentencespacing] never
    raises.  It puts one space before the text exactly when the last
    character of the last action is one of . ! ? , ; : and, when there is no
    action, when the last character of the prompt is; in all other cases,
    a blank last action among them, it returns the text as it is. *)
Theorem addsentencespacing_cases (txt : string) (vars : kobold_vars) :
  NoDup (OrderedDict.keys (dict (vars_actions vars))) ->
  (dict (vars_actions vars) = [] ->
   addsentencespacing txt vars
   = Ok (if is_closure (lastchar_of (vars_prompt vars))
         then (" " ++ txt)%string else txt))
  /\ (forall d k a,
        dict (vars_actions vars) = (d ++ [(k, a)])%list ->
        addsentencespacing txt vars
        = Ok (if is_closure (lastchar_of a) then (" " ++ txt)%string else txt))
  /\ (exists out, addsentencespacing txt vars = Ok out).
Proof.
  intros Hnd.
  assert (H1 : dict (vars_actions vars) = [] ->
               addsentencespacing txt vars
               = Ok (if is_closure (lastchar_of (vars_prompt vars))
                     then (" " ++ txt)%string else txt)).
  { intros Hd. unfold addsentencespacing.
    now rewrite (context_lastchar_empty vars Hd). }
  assert (H2 : forall d k a,
             dict (vars_actions vars) = (d ++ [(k, a)])%list ->
             addsentencespacing txt vars
             = Ok (if is_closure (lastchar_of a)
                   then (" " ++ txt)%string else txt)).
  { intros d k a Hd. unfold addsentencespacing.
    rewrite (context_lastchar_snoc vars d k a Hnd Hd). now destruct a. }
  split; [exact H1|]. split; [exact H2|].
  destruct (OrderedDict.popitem (dict (vars_actions vars)))
    as [[[k a] rest]|] eqn:E.
  - apply popitem_Some in E. rewrite (H2 rest k a E). eauto.
  - apply popitem_None in E. rewrite (H1 E). eauto.
Qed.

Lemma addsentencespacing_cases_witness :
  let vars := {| vars_actions := init [(0, "He left."%string)];
                 vars_prompt := "Once"; vars_actionmode := 0;
                 vars_newlinemode := "n";
                 vars_regex_sl_sub := fun s => s |} in
  addsentencespacing "She stayed" vars = Ok " She stayed"%string.
Proof.
  intros vars.
  destruct (addsentencespacing_cases "She stayed" vars) as (_ & H & _).
  - repeat constructor. intros [].
  - apply (H [] 0 "He left."%string). reflexivity.
Defined.

(** X19.  On a register without doubled ids [singlelineprocessing] never
    raises.  It returns what [regex_sl.sub] makes of the text, followed by
    one newline unless the last action (the prompt, when there is no
    action) ends in a newline already; after a blank last action nothing
    is added, while after an empty prompt the newline is. *)
Theorem singlelineprocessing_cases (txt : string) (vars : kobold_vars) :
  NoDup (OrderedDict.keys (dict (vars_actions vars))) ->
  (dict (vars_actions vars) = [] ->
   singlelineprocessing txt vars
   = Ok (match lastchar_of (vars_prompt vars) with
         | Some "010"%char => vars_regex_sl_sub vars txt
         | _ => (vars_regex_sl_sub vars txt ++ newline)%string
         end))
  /\ (forall d k a,
        dict (vars_actions vars) = (d ++ [(k, a)])%list ->
        singlelineprocessing txt vars
        = Ok (match lastchar_of a with
              | None => vars_regex_sl_sub vars txt
              | Some "010"%char => vars_regex_sl_sub vars txt
              | Some _ => (vars_regex_sl_sub vars txt ++ newline)%string
              end))
  /\ (exists out, singlelineprocessing txt vars = Ok out).
Proof.
  intros Hnd.
  assert (H1 : dict (vars_actions vars) = [] ->
               singlelineprocessing txt vars
               = Ok (match lastchar_of (vars_prompt vars) with
                     | Some "010"%char => vars_regex_sl_sub vars txt
                     | _ => (vars_regex_sl_sub vars txt ++ newline)%string
                     end)).
  { intros Hd. unfold singlelineprocessing.
    now rewrite (context_lastchar_empty vars Hd). }
  assert (H2 : forall d k a,
             dict (vars_actions vars) = (d ++ [(k, a)])%list ->
             singlelineprocessing txt vars
             = Ok (match lastchar_of a with
                   | None => vars_regex_sl_sub vars txt
                   | Some "010"%char => vars_regex_sl_sub vars txt
                   | Some _ => (vars_regex_sl_sub vars txt ++ newline)%string
                   end)).
  { intros d k a Hd. unfold singlelineprocessing.
    rewrite (context_lastchar_snoc vars d k a Hnd Hd).
    destruct a as [|c a]; [reflexivity|].
    destruct (lastchar_of (String c a)) as [[[] [] [] [] [] [] [] []]|] eqn:E;
      try reflexivity.
    exfalso. clear - E. revert c E.
    induction a as [|c' a IH]; intros c E; [discriminate|].
    now apply (IH c'). }
  split; [exact H1|]. split; [exact H2|].
  destruct (OrderedDict.popitem (dict (vars_actions vars)))
    as [[[k a] rest]|] eqn:E.
  - apply popitem_Some in E. rewrite (H2 rest k a E). eauto.
  - apply popitem_None in E. rewrite (H1 E). eauto.
Qed.

Lemma singlelineprocessing_cases_witness :
  let vars := {| vars_actions := init [(0, "He left."%string); (1, ""%string)];
                 vars_prompt := "Once"; vars_actionmode := 0;
                 vars_newlinemode := "n";
                 vars_regex_sl_sub := fun s => s |} in
  singlelineprocessing "She stayed" vars = Ok "She stayed"%string.
Proof.
  intros vars.
  destruct (singlelineprocessing_cases "She stayed" vars) as (_ & H & _).
  - repeat constructor; simpl; intuition discriminate.
  - apply (H [(0, "He left."%string)] 1 ""%string). reflexivity.
Defined.

End LastActionFacts.

(** * [cleanfilename] *)

Section FilenameFacts.

Import utils.

Variable isspace : Z -> bool.

Lemma dropwhile_head l :
  match dropwhile isspace l with
  | [] => True
  | c :: _ => isspace c = false
  end.
Proof.
  induction l as [|c l IH]; simpl; [exact I|].
  destruct (isspace c) eqn:E; [exact IH|exact E].
Qed.

Lemma dropwhile_incl l c : In c (dropwhile isspace l) -> In c l.
Proof.
  induction l as [|a l IH]; simpl; [tauto|].
  destruct (isspace a); [intros H; right; now apply IH|tauto].
Qed.

Lemma rstrip_incl l c : In c (rstrip isspace l) -> In c l.
Proof.
  unfold rstrip. intros H. apply in_rev in H. apply dropwhile_incl in H.
  now apply in_rev.
Qed.

Lemma rstrip_last l l' c :
  rstrip isspace l = (l' ++ [c])%list -> isspace c = false.
Proof.
  unfold rstrip. intros H.
  pose proof (dropwhile_head (rev l)) as Hh.
  apply (f_equal (@rev Z)) in H. rewrite rev_involutive, rev_app_distr in H.
  simpl in H. now rewrite H in Hh.
Qed.

Lemma rstrip_twice l : rstrip isspace (rstrip isspace l) = rstrip isspace l.
Proof.
  unfold rstrip. rewrite rev_involutive.
  pose proof (dropwhile_head (rev l)) as Hh.
  destruct (dropwhile isspace (rev l)) as [|c l'] eqn:E; [reflexivity|].
  simpl. now rewrite Hh.
Qed.

Lemma filter_fixed (f : Z -> bool) l :
  (forall c, In c l -> f c = true) -> filter f l = l.
Proof.
  induction l as [|a l IH]; intros H; simpl; [reflexivity|].
  rewrite (H a (or_introl eq_refl)). f_equal. apply IH.
  intros c Hc. apply H. now right.
Qed.

(** X20.  What [cleanfilename] returns holds no '/' and no backslash and
    does not end in white space; every character of it is one of the file
    name; and cleaning it again changes nothing. *)
Theorem cleanfilename_is_clean (filename : list Z) :
  (forall c, In c (cleanfilename isspace filename) ->
             c <> 47 /\ c <> 92 /\ In c filename)
  /\ (forall l c, cleanfilename isspace filename = (l ++ [c])%list ->
                  isspace c = false)
  /\ cleanfilename isspace (cleanfilename isspace filename)
     = cleanfilename isspace filename.
Proof.
  assert (Hin : forall c, In c (cleanfilename isspace filename) ->
                  negb (existsb (Z.eqb c) filteredcharacters) = true
                  /\ In c filename).
  { intros c H. unfold cleanfilename in H. apply rstrip_incl in H.
    apply filter_In in H. tauto. }
  split; [|split].
  - intros c H. destruct (Hin c H) as [Hc Hf]. simpl in Hc.
    apply negb_true_iff in Hc. apply orb_false_elim in Hc.
    destruct Hc as [H47 Hc]. apply orb_false_elim in Hc. destruct Hc as [H92 _].
    apply Z.eqb_neq in H47, H92. tauto.
  - intros l c H. unfold cleanfilename in H. now apply rstrip_last in H.
  - unfold cleanfilename at 1. rewrite filter_fixed.
    + unfold cleanfilename. apply rstrip_twice.
    + intros c H. now destruct (Hin c H).
Qed.

End FilenameFacts.

(** * Further properties of the warper pipeline *)

Section WarperPipelineComposition.

Variables Tensor InputIds Shape : Type.
Variable shape : Tensor -> Shape.
Variable from_id : Z -> Warper Tensor InputIds.

(** X21.  Running the warpers of two sampler orders put one after the
    other is running the first order and then the second on its result,
    and an assertion error of the first is the error of the whole; so it
    is with the post-processors handed to the pipeline. *)
Theorem sampler_orders_compose
    (order1 order2 : list Z)
    (processors1 processors2 : list (Processor Tensor InputIds))
    (scores : Tensor) (input_ids : InputIds) :
  _apply_warpers from_id (order1 ++ order2) scores input_ids
  = match _apply_warpers from_id order1 scores input_ids with
    | Ok scores' => _apply_warpers from_id order2 scores' input_ids
    | Raise e => Raise e
    end
  /\ KoboldLogitsWarperList_call from_id order1 (processors1 ++ processors2)
       input_ids scores
     = match KoboldLogitsWarperList_call from_id order1 processors1
               input_ids scores with
       | Ok scores' => apply_processors processors2 scores' input_ids
       | Raise e => Raise e
       end.
Proof.
  split.
  - apply apply_warpers_app.
  - unfold KoboldLogitsWarperList_call.
    destruct (_apply_warpers from_id order1 scores input_ids) as [s|e];
      [|reflexivity].
    apply apply_processors_app.
Qed.

Lemma apply_warpers_keep_shape order : forall scores input_ids out,
  (forall sid, In sid order -> value_is_valid (from_id sid) = true ->
     forall s ids t, warper_output (from_id sid) s ids = Some t ->
                     shape t = shape s) ->
  _apply_warpers from_id order scores input_ids = Ok out ->
  shape out = shape scores.
Proof.
  induction order as [|sid order IH]; intros scores input_ids out Hw H.
  - injection H as <-. reflexivity.
  - simpl in H. destruct (value_is_valid (from_id sid)) eqn:Ev; simpl in H.
    + destruct (warper_output (from_id sid) scores input_ids) as [t|] eqn:Et;
        [|discriminate].
      rewrite (IH t input_ids out); [|intros; eapply Hw; eauto; now right|exact H].
      eapply Hw; eauto. now left.
    + apply (IH scores input_ids out); [|exact H].
      intros; eapply Hw; eauto. now right.
Qed.

Lemma apply_processors_keep_shape (processors : list (Processor Tensor InputIds)) :
  forall scores input_ids out,
  (forall p, In p processors ->
     forall s ids t, processor_call p s ids = Some t -> shape t = shape s) ->
  apply_processors processors scores input_ids = Ok out ->
  shape out = shape scores.
Proof.
  induction processors as [|p processors IH]; intros scores input_ids out Hp H.
  - injection H as <-. reflexivity.
  - simpl in H.
    destruct (processor_call p scores input_ids) as [t|] eqn:Et; [|discriminate].
    rewrite (IH t input_ids out); [|intros; eapply Hp; eauto; now right|exact H].
    eapply Hp; eauto. now left.
Qed.

(** X22.  When every valid warper of the sampler order and every
    post-processor returns tensors of the shape it was given, the tensor
    the pipeline returns has the shape of the input scores. *)
Theorem pipeline_keeps_shape
    (sampler_order : list Z)
    (logits_processors : list (Processor Tensor InputIds))
    (scores out : Tensor) (input_ids : InputIds) :
  (forall sid, In sid sampler_order -> value_is_valid (from_id sid) = true ->
     forall s ids t, warper_output (from_id sid) s ids = Some t ->
                     shape t = shape s) ->
  (forall p, In p logits_processors ->
     forall s ids t, processor_call p s ids = Some t -> shape t = shape s) ->
  KoboldLogitsWarperList_call from_id sampler_order logits_processors
    input_ids scores = Ok out ->
  shape out = shape scores.
Proof.
  intros Hw Hp H. unfold KoboldLogitsWarperList_call in H.
  destruct (_apply_warpers from_id sampler_order scores input_ids) as [s|e] eqn:E;
    [|discriminate].
  rewrite (apply_processors_keep_shape logits_processors s input_ids out Hp H).
  exact (apply_warpers_keep_shape sampler_order scores input_ids s Hw E).
Qed.

End WarperPipelineComposition.

Lemma add_to_all_shape d t :
  Instances.tensor_shape (Instances.add_to_all d t) = Instances.tensor_shape t.
Proof.
  unfold Instances.tensor_shape, Instances.add_to_all.
  rewrite length_map. destruct t as [|row t]; simpl; [reflexivity|].
  now rewrite length_map.
Qed.

Lemma pipeline_keeps_shape_witness :
  Instances.tensor_shape [[16; 18; 20]] = Instances.tensor_shape Instances.scores0.
Proof.
  apply (pipeline_keeps_shape Instances.tensor (list nat) (nat * nat)%type
           Instances.tensor_shape Instances.from_id
           [1; 0] [Instances.bias_processor]
           Instances.scores0 [[16; 18; 20]] [0%nat]).
  - intros sid [<-|[<-|[]]] Hv s ids t Ht; [|discriminate].
    injection Ht as <-. apply add_to_all_shape.
  - intros p [<-|[]] s ids t Ht. injection Ht as <-. apply add_to_all_shape.
  - reflexivity.
Defined.

(** * Properties of [_post_load] *)

Section PostLoadFacts.

Import PostLoad.

Variable badwordsids_default : list (list Z).
Variable newlinemode_before : string.
Variable vocab : list (string * Z).
Variable eos_token_id : Z.

Lemma post_load_badwordsids config_model_type :
  in_list config_model_type ["gpt2"; "gpt_neo"; "gptj"]%string = false ->
  badwordsids (_post_load badwordsids_default config_model_type
                 newlinemode_before vocab eos_token_id)
  = (map (fun kv => [snd kv]) (filter (fun kv => mentions_bracket (fst kv)) vocab)
     ++ if String.eqb
             (newlinemode (_post_load badwordsids_default config_model_type
                             newlinemode_before vocab eos_token_id)) "n"
        then [[eos_token_id]] else [])%list.
Proof.
  intros H. unfold _post_load. cbn [badwordsids newlinemode]. rewrite H.
  destruct (list_eq_dec (list_eq_dec Z.eq_dec) badwordsids_default
              badwordsids_default); [|contradiction].
  cbn [andb negb].
  match goal with
  | |- context [if String.eqb ?m "n" then _ else _] =>
      destruct (String.eqb m "n")
  end; [reflexivity|now rewrite app_nil_r].
Qed.

(** X23.  For a model type other than gpt2, gpt_neo and gptj, the bad
    words after [_post_load] are one-token entries; the token of every
    vocabulary item whose text holds '[' or ']' is among them; and every
    entry is such a token, or the end-of-sequence token when the newline
    mode is "n". *)
Theorem post_load_bans_brackets (config_model_type : string) :
  in_list config_model_type ["gpt2"; "gpt_neo"; "gptj"]%string = false ->
  let st := _post_load badwordsids_default config_model_type
              newlinemode_before vocab eos_token_id in
  (forall w, In w (badwordsids st) -> exists v, w = [v])
  /\ (forall k v, In (k, v) vocab -> mentions_bracket k = true ->
                  In [v] (badwordsids st))
  /\ (forall w, In w (badwordsids st) ->
        (exists k v, In (k, v) vocab /\ mentions_bracket k = true /\ w = [v])
        \/ (newlinemode st = "n"%string /\ w = [eos_token_id])).
Proof.
  intros H st.
  assert (Hb := post_load_badwordsids config_model_type H). fold st in Hb.
  assert (Hchar : forall w, In w (badwordsids st) ->
            (exists k v, In (k, v) vocab /\ mentions_bracket k = true /\ w = [v])
            \/ (newlinemode st = "n"%string /\ w = [eos_token_id])).
  { intros w Hw. rewrite Hb in Hw. apply in_app_iff in Hw.
    destruct Hw as [Hw|Hw].
    - left. apply in_map_iff in Hw. destruct Hw as [[k v] [<- Hkv]].
      apply filter_In in Hkv. exists k, v. simpl in *. tauto.
    - right. destruct (String.eqb_spec (newlinemode st) "n") as [E|E];
        [|contradiction].
      destruct Hw as [<-|[]]. now split. }
  split; [|split; [|exact Hchar]].
  - intros w Hw. destruct (Hchar w Hw) as [(k & v & _ & _ & ->)|[_ ->]]; eauto.
  - intros k v Hkv Hk. rewrite Hb. apply in_app_iff. left.
    apply in_map_iff. exists (k, v). split; [reflexivity|].
    apply filter_In. now split.
Qed.

(** X24.  [_post_load] sets the newline mode to "s" for the model type
    xglm and to "ns" for opt and bloom, whatever it was before, and then
    bans no end-of-sequence token: the bad words are the bracket tokens
    alone; for the model types gpt2, gpt_neo and gptj it keeps the newline
    mode and the default bad words. *)
Theorem post_load_newline_mode (config_model_type : string) :
  let st := _post_load badwordsids_default config_model_type
              newlinemode_before vocab eos_token_id in
  (config_model_type = "xglm"%string -> newlinemode st = "s"%string)
  /\ (in_list config_model_type ["opt"; "bloom"]%string = true ->
      newlinemode st = "ns"%string)
  /\ (in_list config_model_type ["xglm"; "opt"; "bloom"]%string = true ->
      badwordsids st
      = map (fun kv => [snd kv])
            (filter (fun kv => mentions_bracket (fst kv)) vocab))
  /\ (in_list config_model_type ["gpt2"; "gpt_neo"; "gptj"]%string = true ->
      newlinemode st = newlinemode_before
      /\ badwordsids st = badwordsids_default).
Proof.
  intros st. subst st. unfold _post_load, in_list.
  cbn [badwordsids newlinemode existsb].
  destruct (list_eq_dec (list_eq_dec Z.eq_dec) badwordsids_default
              badwordsids_default); [|contradiction].
  split; [|split; [|split]].
  - intros ->. reflexivity.
  - intros H. apply orb_prop in H.
    destruct H as [H|H]; [|apply orb_prop in H; destruct H as [H|H];
                             [|discriminate]];
      apply String.eqb_eq in H; subst; reflexivity.
  - intros H. apply orb_prop in H.
    destruct H as [H|H];
      [|apply orb_prop in H;
        destruct H as [H|H];
        [|apply orb_prop in H; destruct H as [H|H]; [|discriminate]]];
      apply String.eqb_eq in H; subst; reflexivity.
  - intros H. apply orb_prop in H.
    destruct H as [H|H];
      [|apply orb_prop in H;
        destruct H as [H|H];
        [|apply orb_prop in H; destruct H as [H|H]; [|discriminate]]];
      apply String.eqb_eq in H; subst; split; reflexivity.
Qed.

End PostLoadFacts.

Lemma post_load_bans_brackets_witness :
  In [7] (PostLoad.badwordsids
            (PostLoad._post_load [[1]] "llama" "n"
               [("a["%string, 5); ("b"%string, 6); ("]"%string, 7)] 2)).
Proof.
  destruct (post_load_bans_brackets [[1]] "n"
              [("a["%string, 5); ("b"%string, 6); ("]"%string, 7)] 2
              "llama" eq_refl) as (_ & H & _).
  apply (H "]"%string 7); [simpl; tauto|reflexivity].
Defined.

Lemma post_load_newline_mode_witness :
  PostLoad.badwordsids
    (PostLoad._post_load [[1]] "opt" "n"
       [("a["%string, 5); ("b"%string, 6); ("]"%string, 7)] 2)
  = [[5]; [7]]
  /\ PostLoad.badwordsids
       (PostLoad._post_load [[1]] "gptj" "n"
          [("a["%string, 5); ("b"%string, 6); ("]"%string, 7)] 2)
     = [[1]].
Proof.
  destruct (post_load_newline_mode [[1]] "n"
              [("a["%string, 5); ("b"%string, 6); ("]"%string, 7)] 2 "opt")
    as (_ & _ & H & _).
  destruct (post_load_newline_mode [[1]] "n"
              [("a["%string, 5); ("b"%string, 6); ("]"%string, 7)] 2 "gptj")
    as (_ & _ & _ & H').
  split; [apply H; reflexivity|apply H'; reflexivity].
Defined.

(** * Properties of [get_local_model_path] *)

Section LocalModelPathFacts.

Variable path_exists : string -> bool.
Variable path_isdir : string -> bool.
Variable path_join : string -> string -> string.

(** X25.  A path that [get_local_model_path] returns when existence is not
    ignored exists: [os.path.exists] or [os.path.isdir] answers true for
    it. *)
Theorem local_model_path_exists
    (path : option string) (model_name : string) (legacy : bool) (p : string) :
  get_local_model_path path_exists path_isdir path_join path model_name
    legacy false = Ok (Some p) ->
  path_exists p = true \/ path_isdir p = true.
Proof.
  unfold get_local_model_path. intros H.
  destruct path as [q|].
  - destruct (path_exists q) eqn:Eq.
    + injection H as <-. now left.
    + destruct (PostLoad.in_list model_name custom_model_names).
      * destruct q as [|c q]; [discriminate|].
        destruct (path_exists (path_join "models" (String c q))) eqn:Ej;
          [|discriminate].
        injection H as <-. now left.
      * rewrite orb_false_r in H.
        match type of H with
        | context [path_isdir ?r] => destruct (path_isdir r) eqn:Ed
        end; [|discriminate].
        injection H as <-. now right.
  - destruct (PostLoad.in_list model_name custom_model_names); [discriminate|].
    rewrite orb_false_r in H.
    match type of H with
    | context [path_isdir ?r] => destruct (path_isdir r) eqn:Ed
    end; [|discriminate].
    injection H as <-. now right.
Qed.

(** X26.  For a model name other than the four names of custom models,
    [get_local_model_path] never raises and, when existence is ignored,
    always returns a path; for one of the four names it never returns
    [None]: it returns a path or fails an assertion, also when existence is
    ignored. *)
Theorem local_model_path_ignoring_existence
    (path : option string) (model_name : string)
    (legacy ignore_existance : bool) :
  (PostLoad.in_list model_name custom_model_names = false ->
   (exists out, get_local_model_path path_exists path_isdir path_join path
                  model_name legacy ignore_existance = Ok out)
   /\ exists p, get_local_model_path path_exists path_isdir path_join path
                  model_name legacy true = Ok (Some p))
  /\ (PostLoad.in_list model_name custom_model_names = true ->
      get_local_model_path path_exists path_isdir path_join path
        model_name legacy ignore_existance <> Ok None
      /\ (path = None ->
          get_local_model_path path_exists path_isdir path_join path
            model_name legacy true = Raise (AssertionError ""))).
Proof.
  unfold get_local_model_path. split; intros H; rewrite H.
  - destruct (match path with
              | Some p => if path_exists p then Some p else None
              | None => None
              end) as [q|].
    + split; eauto.
    + rewrite orb_true_r. split; [|eauto].
      match goal with
      | |- context [path_isdir ?r || _] => destruct (path_isdir r || ignore_existance)
      end; eauto.
  - split.
    + destruct path as [[|c q]|]; simpl.
      * destruct (path_exists ""); discriminate.
      * destruct (path_exists (String c q));
          [discriminate|].
        destruct (path_exists (path_join "models" (String c q))); discriminate.
      * discriminate.
    + intros ->. reflexivity.
Qed.

End LocalModelPathFacts.

Lemma local_model_path_exists_witness :
  let path_exists := String.eqb "models/KoboldAI_fairseq-dense-13B" in
  let path_join := fun a b => (a ++ "/" ++ b)%string in
  get_local_model_path path_exists path_exists path_join None
    "KoboldAI/fairseq-dense-13B" false false
  = Ok (Some "models/KoboldAI_fairseq-dense-13B"%string)
  /\ (path_exists "models/KoboldAI_fairseq-dense-13B"%string = true
      \/ path_exists "models/KoboldAI_fairseq-dense-13B"%string = true).
Proof.
  intros path_exists path_join. split; [reflexivity|].
  apply (local_model_path_exists path_exists path_exists path_join None
           "KoboldAI/fairseq-dense-13B" false).
  reflexivity.
Defined.

Lemma local_model_path_ignoring_existence_witness :
  let nothing := fun _ : string => false in
  let path_join := fun a b => (a ++ "/" ++ b)%string in
  (exists p, get_local_model_path nothing nothing path_join None
               "KoboldAI/fairseq-dense-13B" false true = Ok (Some p))
  /\ get_local_model_path nothing nothing path_join None "NeoCustom" false true
     = Raise (AssertionError "").
Proof.
  intros nothing path_join.
  destruct (local_model_path_ignoring_existence nothing nothing path_join None
              "KoboldAI/fairseq-dense-13B" false true) as [H _].
  destruct (local_model_path_ignoring_existence nothing nothing path_join None
              "NeoCustom" false true) as [_ H'].
  split.
  - apply H. reflexivity.
  - apply H'; reflexivity.
Defined.

(** * The statements with a condition, on instances *)

Lemma setitem_keeps_order_witness :
  let r := init [(0, "a"%string); (1, "b"%string)] in
  OrderedDict.keys (dict (setitem r 0 "A")) = [0; 1]
  /\ OrderedDict.keys (dict (setitem r 5 "e")) = [0; 1; 5]
  /\ get_last_key (setitem r 5 "e") = Ok 5.
Proof.
  intros r.
  destruct (setitem_keeps_order r 0 "A") as [Hlive _].
  destruct (setitem_keeps_order r 5 "e") as [_ Hnew].
  destruct Hlive as [Hk _]; [simpl; tauto|].
  destruct Hnew as (Hk' & _ & Hlast); [simpl; intuition discriminate|].
  split; [exact Hk|]. split; [exact Hk'|exact Hlast].
Defined.

Lemma init_last_pair_wins_witness :
  getitem (init ([(0, "a"%string); (1, "b"%string)] ++ [(0, "c"%string)])) 0
  = Ok "c"%string
  /\ OrderedDict.keys
       (dict (init ([(0, "a"%string); (1, "b"%string)] ++ [(0, "c"%string)])))
     = [0; 1].
Proof.
  destruct (init_last_pair_wins [(0, "a"%string); (1, "b"%string)] 0 "c")
    as (Hget & _ & Hkeys).
  split; [exact Hget|]. apply Hkeys. simpl. tauto.
Defined.

Lemma removespecialchars_removes_witness :
  utils.in_class (utils.removespecialchars "a<b>#c" None) "#" = false
  /\ utils.in_class (utils.removespecialchars "a<b>#c" None) "<" = false
  /\ utils.in_class (utils.removespecialchars "a<b>#c" None) "b" = true.
Proof.
  destruct (removespecialchars_removes "a<b>#c" None) as (H1 & H2 & H3 & _).
  split; [apply H1; reflexivity|]. split.
  - apply (H2 "<"%char). reflexivity.
  - rewrite (H3 "b"%char); reflexivity.
Defined.

Lemma cleanfilename_is_clean_witness :
  let isspace := fun c => (c =? 32) || (c =? 9) in
  utils.cleanfilename isspace [115; 47; 116; 32; 92; 32; 9] = [115; 116]
  /\ (forall c, In c (utils.cleanfilename isspace [115; 47; 116; 32; 92; 32; 9]) ->
                c <> 47 /\ c <> 92
                /\ In c [115; 47; 116; 32; 92; 32; 9])
  /\ isspace 116 = false.
Proof.
  intros isspace.
  destruct (cleanfilename_is_clean isspace [115; 47; 116; 32; 92; 32; 9])
    as (Hin & Hlast & _).
  split; [reflexivity|]. split; [exact Hin|].
  apply (Hlast [115] 116). reflexivity.
Defined.
